(** * radcache: a prefixed, typed accessor layer over a Redis client

    Shallow embedding of [cache.go], followed by the properties of the
    accessor layer.  The methods of [RadCache] are translated one by one.
    What they call in other packages ([encoding/json], [unicode/utf8],
    [strconv], go-redis, zap, [log]) is not code of this repository; it is
    embedded here from the documented behaviour of those packages, as far as
    the layer depends on it.

    Layout:
    - errors, the number grammar and the [strconv] interface;
    - UTF-8 and [encoding/json] at the level of bytes;
    - go-redis commands and the client interface, the handle;
    - the process state, the effect monad, the methods in source order;
    - the vocabulary of the properties;
    - a concrete environment: whole-number floats, an in-memory server;
    - properties of the layer, of the JSON codec, and examples. *)

From Stdlib Require Import ZArith NArith String Ascii List Lia Bool.
From Stdlib Require Import DecimalString DecimalZ.
From stdpp Require Import base option gmap strings.
Import ListNotations.

Set Warnings "-register-all".

Local Open Scope string_scope.
Local Open Scope list_scope.

(** ** Errors

    Go's [error] interface, with one constructor per dynamic type that can
    reach the cache layer. *)
Inductive error : Type :=
| redis_Nil                                   (* redis.Nil: the key does not exist *)
| redis_Error (msg : string)                  (* any other failure of a store call *)
| json_UnsupportedTypeError (ty : string)     (* json.Marshal on chan, func, ... *)
| json_UnsupportedValueError (str : string)   (* json.Marshal on NaN, +Inf, -Inf *)
| json_UnmarshalError (msg : string)          (* json.Unmarshal on text it rejects *)
| strconv_NumError (fn num : string).         (* strconv.Atoi, ParseBool, ParseFloat *)

(** [time.Duration]: a signed count of nanoseconds. *)
Definition Duration : Type := Z.

(** ** Numbers that the layer does not compute with

    [float32], [float64] and the [strconv] functions that go-redis and
    [encoding/json] call are an interface of the embedding.  The one law is
    the guarantee of [strconv.FormatFloat] with precision [-1]: the text it
    produces is a JSON number that parses back to the same value. *)

Definition code (c : ascii) : N := N_of_ascii c.

Definition is_digit (c : ascii) : bool := (48 <=? code c)%N && (code c <=? 57)%N.
Definition is_digit19 (c : ascii) : bool := (49 <=? code c)%N && (code c <=? 57)%N.
Definition is_char (n : N) (c : ascii) : bool := (code c =? n)%N.

(** JSON number grammar, as the scanner of [encoding/json] accepts it:
    an optional minus sign; then a single 0, or a digit 1-9 followed by any
    digits; then optionally a dot and one or more digits; then optionally
    e or E, an optional sign and one or more digits.
    Each function returns the unread rest, or [None] when the grammar is
    violated at that point. *)
Fixpoint scan_digits (s : list ascii) : list ascii :=
  match s with
  | c :: s' => if is_digit c then scan_digits s' else s
  | [] => []
  end.

Definition scan_digits1 (s : list ascii) : option (list ascii) :=
  match s with
  | c :: s' => if is_digit c then Some (scan_digits s') else None
  | [] => None
  end.

Definition scan_exp (s : list ascii) : option (list ascii) :=
  match s with
  | c :: s' =>
      if is_char 101 c || is_char 69 c then
        match s' with
        | d :: s'' => if is_char 43 d || is_char 45 d then scan_digits1 s''
                      else scan_digits1 s'
        | [] => None
        end
      else Some s
  | [] => Some s
  end.

Definition scan_frac (s : list ascii) : option (list ascii) :=
  match s with
  | c :: s' =>
      if is_char 46 c then
        match scan_digits1 s' with
        | Some r => scan_exp r
        | None => None
        end
      else scan_exp s
  | [] => Some s
  end.

Definition scan_int (s : list ascii) : option (list ascii) :=
  match s with
  | c :: s' =>
      if is_char 48 c then scan_frac s'
      else if is_digit19 c then scan_frac (scan_digits s')
      else None
  | [] => None
  end.

Definition scan_number (s : list ascii) : option (list ascii) :=
  match s with
  | c :: s' => if is_char 45 c then scan_int s' else scan_int s
  | [] => None
  end.

(** A whole text is a JSON number. *)
Definition is_number (s : list ascii) : bool :=
  match scan_number s with
  | Some [] => true
  | _ => false
  end.

(** What may follow a number: nothing, or a character that cannot extend it. *)
Definition stop (r : list ascii) : Prop :=
  match r with
  | [] => True
  | c :: _ => is_digit c = false /\ is_char 46 c = false /\
              is_char 101 c = false /\ is_char 69 c = false
  end.

Class Strconv : Type := {
  float32 : Type;
  float64 : Type;
  (** the constant [0.0] at each width *)
  float32_zero : float32;
  float64_zero : float64;
  (** [strconv.Atoi], [strconv.ParseInt(s, 10, 64)], [strconv.ParseBool],
      [strconv.ParseFloat(s, 32)] and [strconv.ParseFloat(s, 64)] *)
  Atoi : string -> Z + error;
  ParseInt64 : string -> Z + error;
  ParseBool : string -> bool + error;
  ParseFloat32 : string -> float32 + error;
  ParseFloat64 : string -> float64 + error;
  (** the float encoder of [encoding/json]: [None] on NaN and the
      infinities, otherwise [strconv.FormatFloat] with the shortest digits
      that identify the value *)
  FormatFloat64 : float64 -> option (list ascii);
  FormatFloat64_number : forall f t, FormatFloat64 f = Some t -> is_number t = true;
  FormatFloat64_parse : forall f t,
    FormatFloat64 f = Some t -> ParseFloat64 (string_of_list_ascii t) = inl f
}.

(** ** UTF-8, as [unicode/utf8] validates and writes it *)

Definition in_range (lo hi : N) (c : ascii) : bool :=
  (lo <=? code c)%N && (code c <=? hi)%N.

Definition is_cont (c : ascii) : bool := in_range 128 191 c.

(** Width of the well-formed multi-byte sequence that starts with [b0] and
    continues in [s]; [0] when there is none (then [utf8.DecodeRune] returns
    [RuneError] with width 1). *)
Definition utf8_width (b0 : ascii) (s : list ascii) : nat :=
  if in_range 194 223 b0 then
    match s with
    | b1 :: _ => if is_cont b1 then 2 else 0
    | _ => 0
    end
  else if in_range 224 239 b0 then
    match s with
    | b1 :: b2 :: _ =>
        if (if is_char 224 b0 then in_range 160 191 b1
            else if is_char 237 b0 then in_range 128 159 b1
            else is_cont b1) && is_cont b2
        then 3 else 0
    | _ => 0
    end
  else if in_range 240 244 b0 then
    match s with
    | b1 :: b2 :: b3 :: _ =>
        if (if is_char 240 b0 then in_range 144 191 b1
            else if is_char 244 b0 then in_range 128 143 b1
            else is_cont b1) && is_cont b2 && is_cont b3
        then 4 else 0
    | _ => 0
    end
  else 0.

(** [utf8.ValidString]. *)
Fixpoint utf8_valid (s : list ascii) : bool :=
  match s with
  | [] => true
  | b0 :: s1 =>
      if (code b0 <? 128)%N then utf8_valid s1
      else
        match utf8_width b0 s1, s1 with
        | 2, _ :: s2 => utf8_valid s2
        | 3, _ :: _ :: s3 => utf8_valid s3
        | 4, _ :: _ :: _ :: s4 => utf8_valid s4
        | _, _ => false
        end
  end.

Definition byte (n : N) : ascii := ascii_of_N n.

(** U+FFFD, the replacement character, in UTF-8. *)
Definition utf8_RuneError : list ascii := [byte 239; byte 191; byte 189].

(** [utf8.EncodeRune]. *)
Definition utf8_EncodeRune (r : N) : list ascii :=
  if (r <? 128)%N then [byte r]
  else if (r <? 2048)%N then
    [byte (N.lor 192 (N.shiftr r 6)); byte (N.lor 128 (N.land r 63))]
  else if ((55296 <=? r)%N && (r <=? 57343)%N) || (1114111 <? r)%N then utf8_RuneError
  else if (r <? 65536)%N then
    [byte (N.lor 224 (N.shiftr r 12));
     byte (N.lor 128 (N.land (N.shiftr r 6) 63));
     byte (N.lor 128 (N.land r 63))]
  else
    [byte (N.lor 240 (N.shiftr r 18));
     byte (N.lor 128 (N.land (N.shiftr r 12) 63));
     byte (N.lor 128 (N.land (N.shiftr r 6) 63));
     byte (N.lor 128 (N.land r 63))].

(** [P] holds of every number below [n]. *)
Fixpoint all_below (n : nat) (P : N -> bool) : bool :=
  match n with
  | O => true
  | S n' => P (N.of_nat n') && all_below n' P
  end.

(** ** [encoding/json] on generic values

    The dynamic values that reach [json.Marshal] through an [interface{}]:
    the six shapes that [json.Unmarshal] stores into an [interface{}]
    (nil, bool, float64, string, [[]interface{}], [map[string]interface{}]),
    plus [int] and a channel, which only the encoder meets.  A map is its
    list of entries in increasing key order.

    The encoder writes compact text with HTML escaping, map keys sorted;
    the decoder skips white space, checks the grammar, stores numbers as
    float64 and keeps the last value of a repeated key. *)

Definition text (s : string) : list ascii := list_ascii_of_string s.

Definition hex (n : N) : ascii :=
  if (n <? 10)%N then byte (48 + n) else byte (87 + n).

(** One byte below [utf8.RuneSelf] inside a string literal, as the encoder
    with HTML escaping (the default of [json.Marshal]) writes it.  (Recent
    versions of the package write U+0008 and U+000C as the two-character
    escapes that [simple_escape] below reads; the six-character form here
    is read back to the same byte.) *)
Definition json_escape (b : ascii) : list ascii :=
  let n := code b in
  if (n =? 92)%N || (n =? 34)%N then [byte 92; b]
  else if (n =? 10)%N then [byte 92; byte 110]
  else if (n =? 13)%N then [byte 92; byte 114]
  else if (n =? 9)%N then [byte 92; byte 116]
  else if (n <? 32)%N || (n =? 60)%N || (n =? 62)%N || (n =? 38)%N then
    [byte 92; byte 117; byte 48; byte 48; hex (N.shiftr n 4); hex (N.land n 15)]
  else [b].

(** U+2028 and U+2029 are written as escapes. *)
Definition is_line_sep (b0 b1 b2 : ascii) : bool :=
  is_char 226 b0 && is_char 128 b1 && (is_char 168 b2 || is_char 169 b2).

(** The body of a string literal: [encodeState.string] without the quotes. *)
Fixpoint json_string_body (s : list ascii) : list ascii :=
  match s with
  | [] => []
  | b0 :: s1 =>
      if (code b0 <? 128)%N then json_escape b0 ++ json_string_body s1
      else
        match utf8_width b0 s1, s1 with
        | 2, b1 :: s2 => b0 :: b1 :: json_string_body s2
        | 3, b1 :: b2 :: s3 =>
            if is_line_sep b0 b1 b2
            then text "\u202" ++ hex (N.land (code b2) 15) :: json_string_body s3
            else b0 :: b1 :: b2 :: json_string_body s3
        | 4, b1 :: b2 :: b3 :: s4 => b0 :: b1 :: b2 :: b3 :: json_string_body s4
        | _, _ => text "\ufffd" ++ json_string_body s1
        end
  end.

Definition json_string (s : string) : list ascii :=
  byte 34 :: json_string_body (text s) ++ [byte 34].

(** [strconv.AppendInt(b, n, 10)]. *)
Definition FormatInt (n : Z) : list ascii := text (NilZero.string_of_int (Z.to_int n)).

Fixpoint sequence {A E : Type} (l : list (A + E)) : list A + E :=
  match l with
  | [] => inl []
  | inl a :: l' =>
      match sequence l' with
      | inl r => inl (a :: r)
      | inr e => inr e
      end
  | inr e :: _ => inr e
  end.

Fixpoint join (ts : list (list ascii)) : list ascii :=
  match ts with
  | [] => []
  | [t] => t
  | t :: ts' => t ++ byte 44 :: join ts'
  end.

(** Entries of a map in increasing key order; a key written twice keeps the
    last value. *)
Fixpoint map_set {A : Type} (k : string) (a : A) (m : list (string * A)) : list (string * A) :=
  match m with
  | [] => [(k, a)]
  | (k', a') :: m' =>
      match String.compare k k' with
      | Lt => (k, a) :: m
      | Eq => (k, a) :: m'
      | Gt => (k', a') :: map_set k a m'
      end
  end.

Definition sort_keys {A : Type} (m : list (string * A)) : list (string * A) :=
  fold_left (fun acc kv => map_set (fst kv) (snd kv) acc) m [].

Definition is_space (c : ascii) : bool :=
  is_char 32 c || is_char 9 c || is_char 13 c || is_char 10 c.

Fixpoint skip_space (s : list ascii) : list ascii :=
  match s with
  | c :: s' => if is_space c then skip_space s' else s
  | [] => []
  end.

Definition hexval (c : ascii) : option N :=
  if is_digit c then Some (code c - 48)%N
  else if in_range 97 102 c then Some (code c - 87)%N
  else if in_range 65 70 c then Some (code c - 55)%N
  else None.

(** The rune of [\uXXXX], given the four characters after [\u]. *)
Definition getu4 (h1 h2 h3 h4 : ascii) : option N :=
  match hexval h1, hexval h2, hexval h3, hexval h4 with
  | Some a, Some b, Some c, Some d => Some (((a * 16 + b) * 16 + c) * 16 + d)%N
  | _, _, _, _ => None
  end.

Definition utf16_IsSurrogate (r : N) : bool := (55296 <=? r)%N && (r <? 57344)%N.

(** [utf16.DecodeRune]; [None] stands for the replacement character. *)
Definition utf16_DecodeRune (r1 r2 : N) : option N :=
  if (55296 <=? r1)%N && (r1 <? 56320)%N && (56320 <=? r2)%N && (r2 <? 57344)%N
  then Some (N.lor (N.shiftl (r1 - 55296) 10) (r2 - 56320) + 65536)%N
  else None.

Definition simple_escape (e : ascii) : option ascii :=
  if is_char 34 e || is_char 92 e || is_char 47 e then Some e
  else if is_char 98 e then Some (byte 8)
  else if is_char 102 e then Some (byte 12)
  else if is_char 110 e then Some (byte 10)
  else if is_char 114 e then Some (byte 13)
  else if is_char 116 e then Some (byte 9)
  else None.

Definition prepend (p : list ascii) (r : option (list ascii * list ascii))
  : option (list ascii * list ascii) :=
  match r with
  | Some (t, rest) => Some (p ++ t, rest)
  | None => None
  end.

(** Reads a string literal after its opening quote: the decoded bytes and
    the text after the closing quote.  Escapes are decoded, a raw control
    character is refused.  A raw byte from [utf8.RuneSelf] up is decoded and
    encoded again, which copies a well-formed sequence and replaces
    anything else, one byte at a time, by U+FFFD. *)
Fixpoint unquote (s : list ascii) : option (list ascii * list ascii) :=
  match s with
  | [] => None
  | c :: s1 =>
      if is_char 34 c then Some ([], s1)
      else if is_char 92 c then
        match s1 with
        | [] => None
        | e :: s2 =>
            if is_char 117 e then
              match s2 with
              | h1 :: h2 :: h3 :: h4 :: s6 =>
                  match getu4 h1 h2 h3 h4 with
                  | None => None
                  | Some rr =>
                      if utf16_IsSurrogate rr then
                        match s6 with
                        | b :: u :: g1 :: g2 :: g3 :: g4 :: s12 =>
                            match (if is_char 92 b && is_char 117 u
                                   then match getu4 g1 g2 g3 g4 with
                                        | Some rr1 => utf16_DecodeRune rr rr1
                                        | None => None
                                        end
                                   else None) with
                            | Some dec => prepend (utf8_EncodeRune dec) (unquote s12)
                            | None => prepend utf8_RuneError (unquote s6)
                            end
                        | _ => prepend utf8_RuneError (unquote s6)
                        end
                      else prepend (utf8_EncodeRune rr) (unquote s6)
                  end
              | _ => None
              end
            else
              match simple_escape e with
              | Some b => prepend [b] (unquote s2)
              | None => None
              end
        end
      else if (code c <? 32)%N then None
      else if (code c <? 128)%N then prepend [c] (unquote s1)
      else
        match utf8_width c s1, s1 with
        | 2, b1 :: s2 => prepend [c; b1] (unquote s2)
        | 3, b1 :: b2 :: s3 => prepend [c; b1; b2] (unquote s3)
        | 4, b1 :: b2 :: b3 :: s4 => prepend [c; b1; b2; b3] (unquote s4)
        | _, _ => prepend utf8_RuneError (unquote s1)
        end
  end.

(** The rest of a literal name. *)
Fixpoint expect (name s : list ascii) : option (list ascii) :=
  match name with
  | [] => Some s
  | n :: name' =>
      match s with
      | c :: s' => if Ascii.eqb c n then expect name' s' else None
      | [] => None
      end
  end.

Section Json.
Context {SC : Strconv}.

Inductive value : Type :=
| VNil                                 (* the nil interface *)
| VBool (b : bool)
| VInt (n : Z)
| VFloat64 (f : float64)
| VString (s : string)
| VSlice (l : list value)              (* a non-nil []interface{} *)
| VMap (m : list (string * value))     (* a non-nil map[string]interface{} *)
| VChan
| VNilSlice                            (* []interface{}(nil) *)
| VNilMap.                             (* map[string]interface{}(nil) *)

(** [json.Marshal], to bytes.  A nil slice and a nil map are written as
    [null], as the nil interface is; an empty non-nil one as [[]] or [{}]. *)
Fixpoint encode (v : value) : list ascii + error :=
  match v with
  | VNil => inl (text "null")
  | VBool b => inl (text (if b then "true" else "false"))
  | VInt n => inl (FormatInt n)
  | VFloat64 f =>
      match FormatFloat64 f with
      | Some t => inl t
      | None => inr (json_UnsupportedValueError "float64")
      end
  | VString s => inl (json_string s)
  | VSlice l =>
      match sequence (map encode l) with
      | inl ts => inl (byte 91 :: join ts ++ [byte 93])
      | inr e => inr e
      end
  | VMap m =>
      match sequence (map (fun kt => match snd kt with
                                     | inl t => inl (json_string (fst kt) ++ byte 58 :: t)
                                     | inr e => inr e
                                     end)
                          (sort_keys (map (fun kv => (fst kv, encode (snd kv))) m))) with
      | inl ts => inl (byte 123 :: join ts ++ [byte 125])
      | inr e => inr e
      end
  | VChan => inr (json_UnsupportedTypeError "chan int")
  | VNilSlice | VNilMap => inl (text "null")
  end.

(** The token that [scan_number] accepted at the head of [s]. *)
Definition token (s rest : list ascii) : list ascii :=
  firstn (length s - length rest) s.

(** The scanner of [encoding/json] refuses a text whose arrays and objects
    nest deeper than this. *)
Definition maxNestingDepth : N := 10000.

(** [json.Unmarshal] into an [interface{}], one value at a time.  [depth]
    counts the arrays and objects that are open around the value.  [fuel]
    bounds the recursion; every call consumes input, so the length of the
    input is enough. *)
Fixpoint decode_value (fuel : nat) (depth : N) (s : list ascii) {struct fuel}
  : option (value * list ascii) :=
  match fuel with
  | O => None
  | S fuel =>
      match skip_space s with
      | [] => None
      | c :: r =>
          if is_char 34 c then
            match unquote r with
            | Some (t, r') => Some (VString (string_of_list_ascii t), r')
            | None => None
            end
          else if is_char 91 c then
            if (depth <? maxNestingDepth)%N then
              match skip_space r with
              | c' :: r' =>
                  if is_char 93 c' then Some (VSlice [], r')
                  else decode_array fuel (depth + 1) (c' :: r') []
              | [] => None
              end
            else None
          else if is_char 123 c then
            if (depth <? maxNestingDepth)%N then
              match skip_space r with
              | c' :: r' =>
                  if is_char 125 c' then Some (VMap [], r')
                  else decode_object fuel (depth + 1) (c' :: r') []
              | [] => None
              end
            else None
          else if is_char 110 c then
            match expect (text "ull") r with Some r' => Some (VNil, r') | None => None end
          else if is_char 116 c then
            match expect (text "rue") r with Some r' => Some (VBool true, r') | None => None end
          else if is_char 102 c then
            match expect (text "alse") r with Some r' => Some (VBool false, r') | None => None end
          else
            match scan_number (c :: r) with
            | Some r' =>
                match ParseFloat64 (string_of_list_ascii (token (c :: r) r')) with
                | inl f => Some (VFloat64 f, r')
                | inr _ => None
                end
            | None => None
            end
      end
  end
with decode_array (fuel : nat) (depth : N) (s : list ascii) (acc : list value) {struct fuel}
  : option (value * list ascii) :=
  match fuel with
  | O => None
  | S fuel =>
      match decode_value fuel depth s with
      | Some (v, r) =>
          match skip_space r with
          | c :: r' =>
              if is_char 44 c then decode_array fuel depth r' (acc ++ [v])
              else if is_char 93 c then Some (VSlice (acc ++ [v]), r')
              else None
          | [] => None
          end
      | None => None
      end
  end
with decode_object (fuel : nat) (depth : N) (s : list ascii) (acc : list (string * value))
    {struct fuel} : option (value * list ascii) :=
  match fuel with
  | O => None
  | S fuel =>
      match skip_space s with
      | q :: r =>
          if is_char 34 q then
            match unquote r with
            | Some (k, r1) =>
                match skip_space r1 with
                | c :: r2 =>
                    if is_char 58 c then
                      match decode_value fuel depth r2 with
                      | Some (v, r3) =>
                          let acc' := map_set (string_of_list_ascii k) v acc in
                          match skip_space r3 with
                          | d :: r4 =>
                              if is_char 44 d then decode_object fuel depth r4 acc'
                              else if is_char 125 d then Some (VMap acc', r4)
                              else None
                          | [] => None
                          end
                      | None => None
                      end
                    else None
                | [] => None
                end
            | None => None
            end
          else None
      | [] => None
      end
  end.

Definition json_Marshal (v : value) : list ascii + error := encode v.

(** Keys in strictly increasing order: each one below all that follow. *)
Fixpoint sorted_keys (ks : list string) : bool :=
  match ks with
  | [] => true
  | k :: ks' => forallb (String.ltb k) ks' && sorted_keys ks'
  end.

(** The values that [json.Unmarshal] can store into an [interface{}]:
    built from nil, bool, float64, string, non-nil slice and non-nil map
    only, every string and key well-formed UTF-8, every map in its
    canonical order. *)
Fixpoint generic (v : value) : bool :=
  match v with
  | VNil | VBool _ | VFloat64 _ => true
  | VString s => utf8_valid (text s)
  | VSlice l => forallb generic l
  | VMap m =>
      sorted_keys (map fst m) &&
      forallb (fun kv => utf8_valid (text (fst kv)) && generic (snd kv)) m
  | VInt _ | VChan | VNilSlice | VNilMap => false
  end.

Definition max_list (l : list N) : N := fold_right N.max 0%N l.

(** How deep the slices and maps of a value nest. *)
Fixpoint nesting (v : value) : N :=
  match v with
  | VSlice l => N.succ (max_list (map nesting l))
  | VMap m => N.succ (max_list (map (fun kv => nesting (snd kv)) m))
  | _ => 0%N
  end.

(** Decoding the text of [v] below [depth] open arrays and objects,
    whatever follows it, yields [v] and leaves what follows. *)
Definition reads_back (v : value) : Prop :=
  generic v = true ->
  forall t, encode v = inl t ->
  forall fuel depth r,
    length t <= fuel -> (depth + nesting v <= maxNestingDepth)%N -> stop r ->
    decode_value fuel depth (t ++ r) = Some (v, r).

Definition json_Unmarshal (data : list ascii) : value + error :=
  match decode_value (S (length data)) 0 data with
  | Some (v, r) =>
      match skip_space r with
      | [] => inl v
      | _ :: _ => inr (json_UnmarshalError "invalid character after top-level value")
      end
  | None => inr (json_UnmarshalError "invalid character or unexpected end of JSON input")
  end.

End Json.

(** ** go-redis: arguments, replies and the client interface *)

(** What the setters hand to [Client.Set] as its [interface{}] value. *)
Inductive Arg {SC : Strconv} : Type :=
| ArgString (s : string)
| ArgInt (n : Z)
| ArgInt64 (n : Z)
| ArgBool (b : bool)
| ArgFloat32 (f : float32)
| ArgFloat64 (f : float64).

(** The server behind a connection.  Each command maps the server state to
    a reply, or to the error the client reports, and a new state. *)
Class Redis {SC : Strconv} : Type := {
  server : Type;
  redis_SET : string -> Arg -> Duration -> server -> (string + error) * server;
  redis_GET : string -> server -> (string + error) * server;
  redis_DEL : list string -> server -> (Z + error) * server;
  redis_EXISTS : list string -> server -> (Z + error) * server
}.

(** Command objects.  A command is created with zero [val] and nil [err];
    processing sets one of the two. *)
Record StatusCmd : Type := { StatusCmd_val : string; StatusCmd_err : option error }.
Record StringCmd : Type := { StringCmd_val : string; StringCmd_err : option error }.
Record IntCmd : Type := { IntCmd_val : Z; IntCmd_err : option error }.

Definition NewStatusCmd : StatusCmd :=
  {| StatusCmd_val := EmptyString; StatusCmd_err := None |}.

Definition StatusCmd_SetErr (cmd : StatusCmd) (e : error) : StatusCmd :=
  {| StatusCmd_val := StatusCmd_val cmd; StatusCmd_err := Some e |}.

Definition StatusCmd_of (r : string + error) : StatusCmd :=
  match r with
  | inl s => {| StatusCmd_val := s; StatusCmd_err := None |}
  | inr e => StatusCmd_SetErr NewStatusCmd e
  end.

Definition StringCmd_of (r : string + error) : StringCmd :=
  match r with
  | inl s => {| StringCmd_val := s; StringCmd_err := None |}
  | inr e => {| StringCmd_val := EmptyString; StringCmd_err := Some e |}
  end.

Definition IntCmd_of (r : Z + error) : IntCmd :=
  match r with
  | inl n => {| IntCmd_val := n; IntCmd_err := None |}
  | inr e => {| IntCmd_val := 0%Z; IntCmd_err := Some e |}
  end.

(** [StringCmd.Result]. *)
Definition Result (cmd : StringCmd) : string * option error :=
  (StringCmd_val cmd, StringCmd_err cmd).

(** The typed readers of [StringCmd]: the command's error if it has one,
    otherwise the [strconv] parse of its value; the value that comes with an
    error is the zero of the type. *)
Definition StringCmd_read {A : Type} (parse : string -> A + error) (zero : A)
    (cmd : StringCmd) : A * option error :=
  match StringCmd_err cmd with
  | Some e => (zero, Some e)
  | None =>
      match parse (StringCmd_val cmd) with
      | inl a => (a, None)
      | inr e => (zero, Some e)
      end
  end.

Definition StringCmd_Int {SC : Strconv} : StringCmd -> Z * option error :=
  StringCmd_read Atoi 0%Z.
Definition StringCmd_Int64 {SC : Strconv} : StringCmd -> Z * option error :=
  StringCmd_read ParseInt64 0%Z.
Definition StringCmd_Bool {SC : Strconv} : StringCmd -> bool * option error :=
  StringCmd_read ParseBool false.
Definition StringCmd_Float32 {SC : Strconv} : StringCmd -> float32 * option error :=
  StringCmd_read ParseFloat32 float32_zero.
Definition StringCmd_Float64 {SC : Strconv} : StringCmd -> float64 * option error :=
  StringCmd_read ParseFloat64 float64_zero.

Definition IntCmd_Val (cmd : IntCmd) : Z := IntCmd_val cmd.
Definition IntCmd_Err (cmd : IntCmd) : option error := IntCmd_err cmd.

(** ** The handle *)

Inductive Context : Type := Background.

Record Client : Type := { Addr : string }.
Record SugaredLogger : Type := { LoggerName : string }.

Record Options : Type := { Prefix : string }.

(** [Db] and [Logger] are pointers: [None] is nil. *)
Record RadCache : Type := {
  Ctx : Context;
  Db : option Client;
  Logger : option SugaredLogger;
  Options_ : Options
}.

Definition NewDefault : RadCache :=
  {| Ctx := Background; Db := None; Logger := None;
     Options_ := {| Prefix := "rad_" |} |}.

Definition New (opt : Options) : RadCache :=
  {| Ctx := Background; Db := None; Logger := None; Options_ := opt |}.

Section Cache.
Context {SC : Strconv} {RD : Redis}.

(** ** Process state and effects

    What a method of the handle can observe and change: the handle it is
    called on, the server, and the record of what crossed the boundary to
    the store, to the zap logger and to the standard logger. *)

Inductive Call : Type :=
| SET (key : string) (v : Arg) (exp : Duration)
| GET (key : string)
| DEL (keys : list string)
| EXISTS (keys : list string).

Inductive Event : Type :=
| StoreCall (c : Call)
| ZapError (l : SugaredLogger) (e : error)
| StdLog (e : error).

Record State : Type := { rad : RadCache; srv : server; trace : list Event }.

Definition emit (ev : Event) (s : State) : State :=
  {| rad := rad s; srv := srv s; trace := trace s ++ [ev] |}.

(** A call returns, or ends the process ([os.Exit]), or panics. *)
Inductive Outcome (A : Type) : Type :=
| Returns (a : A) (s : State)
| Exits (status : Z) (s : State)
| Panics (s : State).
Arguments Returns {A} a s.
Arguments Exits {A} status s.
Arguments Panics {A} s.

Definition M (A : Type) : Type := State -> Outcome A.

#[export] Instance M_ret : MRet M := fun A a s => Returns a s.

#[export] Instance M_bind : MBind M := fun A B f m s =>
  match m s with
  | Returns a s' => f a s'
  | Exits n s' => Exits n s'
  | Panics s' => Panics s'
  end.

Definition self : M RadCache := fun s => Returns (rad s) s.

Definition final {A : Type} (o : Outcome A) : State :=
  match o with
  | Returns _ s | Exits _ s | Panics s => s
  end.

(** Calls through [rad.Db]; a nil client panics before anything is sent. *)
Definition call {R : Type} (c : Call) (run : server -> R * server) : M R := fun s =>
  match Db (rad s) with
  | None => Panics s
  | Some _ =>
      let '(r, d) := run (srv s) in
      Returns r {| rad := rad s; srv := d; trace := trace s ++ [StoreCall c] |}
  end.

Definition Db_Set (key : string) (v : Arg) (exp : Duration) : M StatusCmd :=
  r ← call (SET key v exp) (redis_SET key v exp); mret (StatusCmd_of r).

Definition Db_Get (key : string) : M StringCmd :=
  r ← call (GET key) (redis_GET key); mret (StringCmd_of r).

Definition Db_Del (keys : list string) : M IntCmd :=
  r ← call (DEL keys) (redis_DEL keys); mret (IntCmd_of r).

Definition Db_Exists (keys : list string) : M IntCmd :=
  r ← call (EXISTS keys) (redis_EXISTS keys); mret (IntCmd_of r).

(** [rad.Logger.Error(err)]: a nil [*zap.SugaredLogger] is dereferenced. *)
Definition Logger_Error (err : error) : M unit := fun s =>
  match Logger (rad s) with
  | Some l => Returns tt (emit (ZapError l err) s)
  | None => Panics s
  end.

(** [log.Fatal(err)]: print on the standard logger, then [os.Exit(1)]. *)
Definition log_Fatal (err : error) : M unit := fun s =>
  Exits 1 (emit (StdLog err) s).

(** ** Methods of [RadCache], in source order *)

Definition UseRedis (client : Client) : M unit := fun s =>
  Returns tt {| rad := {| Ctx := Ctx (rad s); Db := Some client;
                          Logger := Logger (rad s); Options_ := Options_ (rad s) |};
                srv := srv s; trace := trace s |}.

Definition UseZapLogger (logger : SugaredLogger) : M unit := fun s =>
  Returns tt {| rad := {| Ctx := Ctx (rad s); Db := Db (rad s);
                          Logger := Some logger; Options_ := Options_ (rad s) |};
                srv := srv s; trace := trace s |}.

Definition Marshal (val : value) : string * option error :=
  match json_Marshal val with
  | inr err => (EmptyString, Some err)
  | inl re => (string_of_list_ascii re, None)
  end.

Definition UnMarshal (val : string) : value * option error :=
  match json_Unmarshal (list_ascii_of_string val) with
  | inr err => (VNil, Some err)
  | inl result => (result, None)
  end.

Definition Error (err : error) : M unit :=
  r ← self;
  match Logger r with
  | Some _ => Logger_Error err
  | None => log_Fatal err
  end.

Definition Set_ (key : string) (value : value) (exp : Duration) : M StatusCmd :=
  match Marshal value with
  | (_, Some err) =>
      let cmd := StatusCmd_SetErr NewStatusCmd err in
      Error err;; mret cmd
  | (val, None) =>
      r ← self;
      Db_Set (Prefix (Options_ r) +:+ key) (ArgString val) exp
  end.

Definition SetString (key : string) (value : string) (exp : Duration) : M StatusCmd :=
  r ← self; Db_Set (Prefix (Options_ r) +:+ key) (ArgString value) exp.

Definition SetInt (key : string) (value : Z) (exp : Duration) : M StatusCmd :=
  r ← self; Db_Set (Prefix (Options_ r) +:+ key) (ArgInt value) exp.

Definition SetInt64 (key : string) (value : Z) (exp : Duration) : M StatusCmd :=
  r ← self; Db_Set (Prefix (Options_ r) +:+ key) (ArgInt64 value) exp.

Definition SetBool (key : string) (value : bool) (exp : Duration) : M StatusCmd :=
  r ← self; Db_Set (Prefix (Options_ r) +:+ key) (ArgBool value) exp.

Definition SetFloat32 (key : string) (value : float32) (exp : Duration) : M StatusCmd :=
  r ← self; Db_Set (Prefix (Options_ r) +:+ key) (ArgFloat32 value) exp.

Definition SetFloat64 (key : string) (value : float64) (exp : Duration) : M StatusCmd :=
  r ← self; Db_Set (Prefix (Options_ r) +:+ key) (ArgFloat64 value) exp.

Definition Get (key : string) : M (value * option error) :=
  r ← self;
  cmd ← Db_Get (Prefix (Options_ r) +:+ key);
  match Result cmd with
  | (_, Some err) => Error err;; mret (VNil, Some err)
  | (result, None) => mret (UnMarshal result)
  end.

Definition GetString (key : string) : M (string * option error) :=
  r ← self;
  cmd ← Db_Get (Prefix (Options_ r) +:+ key);
  match Result cmd with
  | (_, Some err) => Error err;; mret (EmptyString, Some err)
  | (result, None) => mret (result, None)
  end.

Definition GetStringOrDefault (key : string) (val : string) : M string :=
  '(result, err) ← GetString key;
  match err with
  | Some _ => mret val
  | None => mret result
  end.

Definition GetInt (key : string) : M (Z * option error) :=
  r ← self;
  cmd ← Db_Get (Prefix (Options_ r) +:+ key);
  match StringCmd_Int cmd with
  | (_, Some err) => Logger_Error err;; mret ((-1)%Z, Some err)
  | (result, None) => mret (result, None)
  end.

Definition GetIntOrDefault (key : string) (val : Z) : M Z :=
  '(result, err) ← GetInt key;
  match err with
  | Some _ => mret val
  | None => mret result
  end.

Definition GetInt64 (key : string) : M (Z * option error) :=
  r ← self;
  cmd ← Db_Get (Prefix (Options_ r) +:+ key);
  match StringCmd_Int64 cmd with
  | (_, Some err) => Logger_Error err;; mret ((-1)%Z, Some err)
  | (result, None) => mret (result, None)
  end.

Definition GetInt64OrDefault (key : string) (val : Z) : M Z :=
  '(result, err) ← GetInt64 key;
  match err with
  | Some _ => mret val
  | None => mret result
  end.

Definition GetBool (key : string) : M (bool * option error) :=
  r ← self;
  cmd ← Db_Get (Prefix (Options_ r) +:+ key);
  match StringCmd_Bool cmd with
  | (_, Some err) => Logger_Error err;; mret (false, Some err)
  | (result, None) => mret (result, None)
  end.

Definition GetBoolOrDefault (key : string) (val : bool) : M bool :=
  '(result, err) ← GetBool key;
  match err with
  | Some _ => mret val
  | None => mret result
  end.

Definition GetFloat32 (key : string) : M (float32 * option error) :=
  r ← self;
  cmd ← Db_Get (Prefix (Options_ r) +:+ key);
  match StringCmd_Float32 cmd with
  | (_, Some err) => Logger_Error err;; mret (float32_zero, Some err)
  | (result, None) => mret (result, None)
  end.

Definition GetFloat32OrDefault (key : string) (val : float32) : M float32 :=
  '(result, err) ← GetFloat32 key;
  match err with
  | Some _ => mret val
  | None => mret result
  end.

Definition GetFloat64 (key : string) : M (float64 * option error) :=
  r ← self;
  cmd ← Db_Get (Prefix (Options_ r) +:+ key);
  match StringCmd_Float64 cmd with
  | (_, Some err) => Logger_Error err;; mret (float64_zero, Some err)
  | (result, None) => mret (result, None)
  end.

Definition GetFloat64OrDefault (key : string) (val : float64) : M float64 :=
  '(result, err) ← GetFloat64 key;
  match err with
  | Some _ => mret val
  | None => mret result
  end.

Definition Del (key : string) : M (option error) :=
  r ← self;
  cmd ← Db_Del [Prefix (Options_ r) +:+ key];
  let err := IntCmd_Err cmd in
  match err with
  | Some e => Error e;; mret err
  | None => mret err
  end.

(** The loop of [DelAny]: [keys = append(keys, prefix+v)] for each [v]. *)
Fixpoint DelAny_keys (prefix : string) (key : list string) (keys : list string)
  : list string :=
  match key with
  | [] => keys
  | v :: key' => DelAny_keys prefix key' (keys ++ [prefix +:+ v])
  end.

Definition DelAny (key : list string) : M (option error) :=
  r ← self;
  let keys := DelAny_keys (Prefix (Options_ r)) key [] in
  cmd ← Db_Del keys;
  let err := IntCmd_Err cmd in
  match err with
  | Some e => Error e;; mret err
  | None => mret err
  end.

Definition Exist (key : string) : M bool :=
  r ← self;
  result ← Db_Exists [Prefix (Options_ r) +:+ key];
  if (IntCmd_Val result =? 1)%Z then mret true else mret false.

(** ** Vocabulary of the properties *)

(** The physical key of a logical key. *)
Definition physical (r : RadCache) (key : string) : string :=
  Prefix (Options_ r) +:+ key.

(** The state after one store call answered with server state [d]. *)
Definition sent (c : Call) (d : server) (s : State) : State :=
  {| rad := rad s; srv := d; trace := trace s ++ [StoreCall c] |}.

(** The store calls of a trace, in order. *)
Fixpoint store_calls (t : list Event) : list Call :=
  match t with
  | [] => []
  | StoreCall c :: t' => c :: store_calls t'
  | _ :: t' => store_calls t'
  end.

(** What reached the zap logger, in order. *)
Fixpoint sink (t : list Event) : list (SugaredLogger * error) :=
  match t with
  | [] => []
  | ZapError l e :: t' => (l, e) :: sink t'
  | _ :: t' => sink t'
  end.

Definition call_keys (c : Call) : list string :=
  match c with
  | SET k _ _ | GET k => [k]
  | DEL ks | EXISTS ks => ks
  end.

(** One call of a method of the handle. *)
Inductive Op : Type :=
| OpUseRedis (client : Client)
| OpUseZapLogger (logger : SugaredLogger)
| OpSet (key : string) (v : value) (exp : Duration)
| OpSetString (key : string) (v : string) (exp : Duration)
| OpSetInt (key : string) (v : Z) (exp : Duration)
| OpSetInt64 (key : string) (v : Z) (exp : Duration)
| OpSetBool (key : string) (v : bool) (exp : Duration)
| OpSetFloat32 (key : string) (v : float32) (exp : Duration)
| OpSetFloat64 (key : string) (v : float64) (exp : Duration)
| OpGet (key : string)
| OpGetString (key : string)
| OpGetStringOrDefault (key : string) (val : string)
| OpGetInt (key : string)
| OpGetIntOrDefault (key : string) (val : Z)
| OpGetInt64 (key : string)
| OpGetInt64OrDefault (key : string) (val : Z)
| OpGetBool (key : string)
| OpGetBoolOrDefault (key : string) (val : bool)
| OpGetFloat32 (key : string)
| OpGetFloat32OrDefault (key : string) (val : float32)
| OpGetFloat64 (key : string)
| OpGetFloat64OrDefault (key : string) (val : float64)
| OpDel (key : string)
| OpDelAny (key : list string)
| OpExist (key : string).

(** The state in which the call leaves the process. *)
Definition after (op : Op) (s : State) : State :=
  match op with
  | OpUseRedis c => final (UseRedis c s)
  | OpUseZapLogger l => final (UseZapLogger l s)
  | OpSet k v e => final (Set_ k v e s)
  | OpSetString k v e => final (SetString k v e s)
  | OpSetInt k v e => final (SetInt k v e s)
  | OpSetInt64 k v e => final (SetInt64 k v e s)
  | OpSetBool k v e => final (SetBool k v e s)
  | OpSetFloat32 k v e => final (SetFloat32 k v e s)
  | OpSetFloat64 k v e => final (SetFloat64 k v e s)
  | OpGet k => final (Get k s)
  | OpGetString k => final (GetString k s)
  | OpGetStringOrDefault k v => final (GetStringOrDefault k v s)
  | OpGetInt k => final (GetInt k s)
  | OpGetIntOrDefault k v => final (GetIntOrDefault k v s)
  | OpGetInt64 k => final (GetInt64 k s)
  | OpGetInt64OrDefault k v => final (GetInt64OrDefault k v s)
  | OpGetBool k => final (GetBool k s)
  | OpGetBoolOrDefault k v => final (GetBoolOrDefault k v s)
  | OpGetFloat32 k => final (GetFloat32 k s)
  | OpGetFloat32OrDefault k v => final (GetFloat32OrDefault k v s)
  | OpGetFloat64 k => final (GetFloat64 k s)
  | OpGetFloat64OrDefault k v => final (GetFloat64OrDefault k v s)
  | OpDel k => final (Del k s)
  | OpDelAny ks => final (DelAny ks s)
  | OpExist k => final (Exist k s)
  end.

Definition logical_keys (op : Op) : list string :=
  match op with
  | OpSet k _ _ | OpSetString k _ _ | OpSetInt k _ _ | OpSetInt64 k _ _
  | OpSetBool k _ _ | OpSetFloat32 k _ _ | OpSetFloat64 k _ _
  | OpGet k | OpGetString k | OpGetStringOrDefault k _
  | OpGetInt k | OpGetIntOrDefault k _ | OpGetInt64 k | OpGetInt64OrDefault k _
  | OpGetBool k | OpGetBoolOrDefault k _
  | OpGetFloat32 k | OpGetFloat32OrDefault k _
  | OpGetFloat64 k | OpGetFloat64OrDefault k _
  | OpDel k | OpExist k => [k]
  | OpDelAny ks => ks
  | OpUseRedis _ | OpUseZapLogger _ => []
  end.

(** Whether the call gets as far as the store on a handle with a client:
    attaching a client or a logger does not address the store, and the
    generic setter stops before it when serialization fails. *)
Definition reaches_store (op : Op) : bool :=
  match op with
  | OpUseRedis _ | OpUseZapLogger _ => false
  | OpSet _ v _ => match snd (Marshal v) with Some _ => false | None => true end
  | _ => true
  end.

Definition attached (s : State) : bool :=
  match Db (rad s) with Some _ => true | None => false end.

(** A getter called in [s] fails with [err] after the store call that led
    to [s']: with a logger it logs [err] and returns it beside [sentinel];
    with none the call does not return. *)
Definition fails_with {A : Type} (get : M (A * option error)) (s s' : State)
    (sentinel : A) (err : error) : Prop :=
  match Logger (rad s) with
  | Some l => get s = Returns (sentinel, Some err) (emit (ZapError l err) s')
  | None => forall a s'', get s <> Returns a s''
  end.

(** The typed setter that hands [a] to the client. *)
Definition SetArg (key : string) (a : Arg) (exp : Duration) : M StatusCmd :=
  match a with
  | ArgString v => SetString key v exp
  | ArgInt v => SetInt key v exp
  | ArgInt64 v => SetInt64 key v exp
  | ArgBool v => SetBool key v exp
  | ArgFloat32 v => SetFloat32 key v exp
  | ArgFloat64 v => SetFloat64 key v exp
  end.

(** A computation that leaves the handle alone and sends nothing. *)
Definition quiet {A : Type} (m : M A) : Prop :=
  forall s, rad (final (m s)) = rad s /\
            store_calls (trace (final (m s))) = store_calls (trace s).

(** Run in [s], the computation leaves the handle alone and sends exactly
    [c], or nothing when the handle has no client. *)
Definition sends {A : Type} (c : Call) (m : M A) (s : State) : Prop :=
  rad (final (m s)) = rad s /\
  store_calls (trace (final (m s))) =
  store_calls (trace s) ++ (if attached s then [c] else []).

(** ** Vocabulary of the further properties *)

(** An outcome with its result dropped. *)
Definition void {A : Type} (o : Outcome A) : Outcome unit :=
  match o with
  | Returns _ s => Returns tt s
  | Exits n s => Exits n s
  | Panics s => Panics s
  end.

(** How the call of a method ends. *)
Definition run (op : Op) (s : State) : Outcome unit :=
  match op with
  | OpUseRedis c => void (UseRedis c s)
  | OpUseZapLogger l => void (UseZapLogger l s)
  | OpSet k v e => void (Set_ k v e s)
  | OpSetString k v e => void (SetString k v e s)
  | OpSetInt k v e => void (SetInt k v e s)
  | OpSetInt64 k v e => void (SetInt64 k v e s)
  | OpSetBool k v e => void (SetBool k v e s)
  | OpSetFloat32 k v e => void (SetFloat32 k v e s)
  | OpSetFloat64 k v e => void (SetFloat64 k v e s)
  | OpGet k => void (Get k s)
  | OpGetString k => void (GetString k s)
  | OpGetStringOrDefault k v => void (GetStringOrDefault k v s)
  | OpGetInt k => void (GetInt k s)
  | OpGetIntOrDefault k v => void (GetIntOrDefault k v s)
  | OpGetInt64 k => void (GetInt64 k s)
  | OpGetInt64OrDefault k v => void (GetInt64OrDefault k v s)
  | OpGetBool k => void (GetBool k s)
  | OpGetBoolOrDefault k v => void (GetBoolOrDefault k v s)
  | OpGetFloat32 k => void (GetFloat32 k s)
  | OpGetFloat32OrDefault k v => void (GetFloat32OrDefault k v s)
  | OpGetFloat64 k => void (GetFloat64 k s)
  | OpGetFloat64OrDefault k v => void (GetFloat64OrDefault k v s)
  | OpDel k => void (Del k s)
  | OpDelAny ks => void (DelAny ks s)
  | OpExist k => void (Exist k s)
  end.

(** The command that a method hands to the client of handle [r]: the
    typed setters pass their value as it is, the generic setter passes the
    JSON text, and nothing when there is none. *)
Definition command (r : RadCache) (op : Op) : option Call :=
  let pk k := Prefix (Options_ r) +:+ k in
  match op with
  | OpUseRedis _ | OpUseZapLogger _ => None
  | OpSet k v e =>
      match Marshal v with
      | (val, None) => Some (SET (pk k) (ArgString val) e)
      | (_, Some _) => None
      end
  | OpSetString k v e => Some (SET (pk k) (ArgString v) e)
  | OpSetInt k v e => Some (SET (pk k) (ArgInt v) e)
  | OpSetInt64 k v e => Some (SET (pk k) (ArgInt64 v) e)
  | OpSetBool k v e => Some (SET (pk k) (ArgBool v) e)
  | OpSetFloat32 k v e => Some (SET (pk k) (ArgFloat32 v) e)
  | OpSetFloat64 k v e => Some (SET (pk k) (ArgFloat64 v) e)
  | OpGet k | OpGetString k | OpGetStringOrDefault k _
  | OpGetInt k | OpGetIntOrDefault k _ | OpGetInt64 k | OpGetInt64OrDefault k _
  | OpGetBool k | OpGetBoolOrDefault k _
  | OpGetFloat32 k | OpGetFloat32OrDefault k _
  | OpGetFloat64 k | OpGetFloat64OrDefault k _ => Some (GET (pk k))
  | OpDel k => Some (DEL [pk k])
  | OpDelAny ks => Some (DEL (map pk ks))
  | OpExist k => Some (EXISTS [pk k])
  end.

(** The server after it has answered a command. *)
Definition answered (c : Call) (d : server) : server :=
  match c with
  | SET k a e => snd (redis_SET k a e d)
  | GET k => snd (redis_GET k d)
  | DEL ks => snd (redis_DEL ks d)
  | EXISTS ks => snd (redis_EXISTS ks d)
  end.

Definition is_attach (op : Op) : bool :=
  match op with
  | OpUseRedis _ | OpUseZapLogger _ => true
  | _ => false
  end.

(** A computation that leaves handle and server alone and sends nothing. *)
Definition tame {A : Type} (m : M A) : Prop :=
  forall s, rad (final (m s)) = rad s /\ srv (final (m s)) = srv s /\
            store_calls (trace (final (m s))) = store_calls (trace s).

(** Run in [s], the computation leaves the handle alone; with a client it
    sends exactly [c] and leaves the server as that command left it;
    without one it touches nothing. *)
Definition issues {A : Type} (c : Call) (m : M A) (s : State) : Prop :=
  rad (final (m s)) = rad s /\
  match Db (rad s) with
  | Some _ => srv (final (m s)) = answered c (srv s) /\
              store_calls (trace (final (m s))) = store_calls (trace s) ++ [c]
  | None => srv (final (m s)) = srv s /\
            store_calls (trace (final (m s))) = store_calls (trace s)
  end.



(** A program of calls on the handle, one after the other. *)
Fixpoint run_all (ops : list Op) : M unit :=
  match ops with
  | [] => mret tt
  | op :: ops' => run op;; run_all ops'
  end.

End Cache.

Arguments Returns {SC RD A} a s.
Arguments Exits {SC RD A} status s.
Arguments Panics {SC RD A} s.

Lemma text_string_of_list_ascii (s : string) : string_of_list_ascii (text s) = s.
Proof. apply string_of_list_ascii_of_string. Qed.

(** ** A concrete environment

    Whole-number floats and an in-memory server: enough to run the layer.
    [float32] and [float64] are the floats that are whole numbers (exact up
    to 2^24 and 2^53), which [strconv] writes and reads as plain decimal
    integers. *)
Module Mem.

Definition parse_uint (s : string) : option Z :=
  match NilZero.uint_of_string s with
  | Some d => Some (Z.of_N (N.of_uint d))
  | None => None
  end.

(** An optional sign and decimal digits. *)
Definition parse_decimal (s : string) : option Z :=
  match s with
  | String c s' =>
      if is_char 45 c then option_map Z.opp (parse_uint s')
      else if is_char 43 c then parse_uint s'
      else parse_uint s
  | EmptyString => None
  end.

Definition parse_int (fn : string) (s : string) : Z + error :=
  match parse_decimal s with
  | Some n =>
      if ((- 2 ^ 63 <=? n) && (n <? 2 ^ 63))%Z then inl n
      else inr (strconv_NumError fn s)
  | None => inr (strconv_NumError fn s)
  end.

Definition parse_bool (s : string) : bool + error :=
  if existsb (String.eqb s) ["1"; "t"; "T"; "TRUE"; "true"; "True"] then inl true
  else if existsb (String.eqb s) ["0"; "f"; "F"; "FALSE"; "false"; "False"] then inl false
  else inr (strconv_NumError "ParseBool" s).

Definition parse_float (s : string) : Z + error :=
  match parse_decimal s with
  | Some n => inl n
  | None => inr (strconv_NumError "ParseFloat" s)
  end.

Definition format_float (f : Z) : option (list ascii) := Some (FormatInt f).

Lemma scan_digits_uint (d : Decimal.uint) :
  scan_digits (text (NilEmpty.string_of_uint d)) = [].
Proof. induction d; simpl; auto. Qed.

Lemma to_uint_head (p : positive) : forall d, Pos.to_uint p <> Decimal.D0 d.
Proof.
  intros d Hd.
  pose proof (DecimalPos.Unsigned.to_of (Pos.to_uint p)) as H.
  rewrite DecimalPos.Unsigned.of_to in H. simpl in H.
  unfold Decimal.unorm in H.
  destruct (Decimal.nzhead (Pos.to_uint p)) eqn:Hn.
  1: exact (DecimalPos.Unsigned.to_uint_nonzero p H).
  all: rewrite <- H, Hd in Hn; exact (DecimalFacts.nzhead_nonzero _ _ Hn).
Qed.

Lemma scan_int_pos (p : positive) :
  scan_int (text (NilZero.string_of_uint (Pos.to_uint p))) = Some [].
Proof.
  pose proof (to_uint_head p) as Hh.
  destruct (Pos.to_uint p) eqn:Hp;
    [exfalso; exact (DecimalPos.Unsigned.to_uint_nonnil p Hp)
    |exfalso; exact (Hh _ eq_refl)
    |simpl; unfold text; rewrite scan_digits_uint; reflexivity ..].
Qed.

Lemma uint_head_not_sign (p : positive) :
  match NilZero.string_of_uint (Pos.to_uint p) with
  | String c _ => is_char 45 c = false /\ is_char 43 c = false
  | EmptyString => False
  end.
Proof.
  destruct (Pos.to_uint p) eqn:Hp;
    [exfalso; exact (DecimalPos.Unsigned.to_uint_nonnil p Hp)
    | simpl; split; reflexivity ..].
Qed.

Lemma format_float_number (f : Z) (t : list ascii) :
  format_float f = Some t -> is_number t = true.
Proof.
  intros [= <-]. unfold is_number, FormatInt.
  destruct f as [|p|p]; [reflexivity| |]; simpl Z.to_int; simpl NilZero.string_of_int.
  - pose proof (uint_head_not_sign p) as Hs. pose proof (scan_int_pos p) as Hi.
    destruct (NilZero.string_of_uint (Pos.to_uint p)) as [|c r]; [tauto|].
    destruct Hs as [Hs _]. unfold scan_number, text; simpl list_ascii_of_string.
    cbv iota beta. rewrite Hs. unfold text in Hi; simpl list_ascii_of_string in Hi.
    now rewrite Hi.
  - pose proof (scan_int_pos p) as Hi.
    unfold scan_number, text; simpl list_ascii_of_string.
    change (is_char 45 "-") with true. cbv iota.
    unfold text in Hi. now rewrite Hi.
Qed.

Lemma parse_uint_pos (p : positive) :
  parse_uint (NilZero.string_of_uint (Pos.to_uint p)) = Some (Z.pos p).
Proof.
  unfold parse_uint.
  rewrite NilZero.usu by apply DecimalPos.Unsigned.to_uint_nonnil.
  unfold N.of_uint. now rewrite DecimalPos.Unsigned.of_to.
Qed.

Lemma format_float_parse (f : Z) (t : list ascii) :
  format_float f = Some t -> parse_float (string_of_list_ascii t) = inl f.
Proof.
  intros [= <-]. unfold FormatInt. rewrite text_string_of_list_ascii.
  unfold parse_float.
  destruct f as [|p|p]; [reflexivity| |]; simpl Z.to_int; simpl NilZero.string_of_int.
  - pose proof (uint_head_not_sign p) as Hs. pose proof (parse_uint_pos p) as Hp.
    destruct (NilZero.string_of_uint (Pos.to_uint p)) as [|c r]; [tauto|].
    destruct Hs as [Hs1 Hs2]. unfold parse_decimal. rewrite Hs1, Hs2.
    now rewrite Hp.
  - unfold parse_decimal. change (is_char 45 "-") with true. cbv iota.
    now rewrite parse_uint_pos.
Qed.

#[export] Instance strconv : Strconv := {|
  float32 := Z;
  float64 := Z;
  float32_zero := 0%Z;
  float64_zero := 0%Z;
  Atoi := parse_int "Atoi";
  ParseInt64 := parse_int "ParseInt";
  ParseBool := parse_bool;
  ParseFloat32 := parse_float;
  ParseFloat64 := parse_float;
  FormatFloat64 := format_float;
  FormatFloat64_number := format_float_number;
  FormatFloat64_parse := format_float_parse
|}.

(** How the client writes an argument on the wire. *)
Definition wire (a : Arg) : string :=
  match a with
  | ArgString s => s
  | ArgInt n | ArgInt64 n | ArgFloat32 n | ArgFloat64 n =>
      string_of_list_ascii (FormatInt n)
  | ArgBool b => if b then "1" else "0"
  end.

(** The server: reachable or not, and the stored strings with the
    time-to-live they were written with. *)
Record memdb : Type := { up : bool; kv : gmap string (string * Duration) }.

Definition refused : error := redis_Error "dial tcp: connection refused".

Definition count (keys : list string) (m : gmap string (string * Duration)) : Z :=
  Z.of_nat (List.length (List.filter (fun k => bool_decide (is_Some (m !! k))) keys)).

Definition mem_SET (key : string) (a : Arg) (exp : Duration) (d : memdb)
  : (string + error) * memdb :=
  if up d then (inl "OK", {| up := true; kv := <[key := (wire a, exp)]> (kv d) |})
  else (inr refused, d).

Definition mem_GET (key : string) (d : memdb) : (string + error) * memdb :=
  if up d then
    match kv d !! key with
    | Some (v, _) => (inl v, d)
    | None => (inr redis_Nil, d)
    end
  else (inr refused, d).

Fixpoint delete_all (keys : list string) (m : gmap string (string * Duration))
  : gmap string (string * Duration) :=
  match keys with
  | [] => m
  | k :: keys' => delete_all keys' (delete k m)
  end.

Fixpoint deleted (keys : list string) (m : gmap string (string * Duration)) : Z :=
  match keys with
  | [] => 0
  | k :: keys' =>
      ((if bool_decide (is_Some (m !! k)) then 1 else 0) + deleted keys' (delete k m))%Z
  end.

Definition mem_DEL (keys : list string) (d : memdb) : (Z + error) * memdb :=
  if up d then
    match keys with
    | [] => (inr (redis_Error "ERR wrong number of arguments for 'del' command"), d)
    | _ => (inl (deleted keys (kv d)), {| up := true; kv := delete_all keys (kv d) |})
    end
  else (inr refused, d).

Definition mem_EXISTS (keys : list string) (d : memdb) : (Z + error) * memdb :=
  if up d then (inl (count keys (kv d)), d) else (inr refused, d).

#[export] Instance redis : Redis := {|
  server := memdb;
  redis_SET := mem_SET;
  redis_GET := mem_GET;
  redis_DEL := mem_DEL;
  redis_EXISTS := mem_EXISTS
|}.

Definition client : Client := {| Addr := "localhost:6379" |}.
Definition sugar : SugaredLogger := {| LoggerName := "radcache" |}.

(** A fresh process: the handle as constructed, an empty reachable server,
    nothing recorded. *)
Definition start (r : RadCache) : State :=
  {| rad := r; srv := {| up := true; kv := ∅ |}; trace := [] |}.

(** The default handle with a client, and with a client and a logger. *)
Definition connected : RadCache :=
  {| Ctx := Background; Db := Some client; Logger := None;
     Options_ := {| Prefix := "rad_" |} |}.

Definition logged : RadCache :=
  {| Ctx := Background; Db := Some client; Logger := Some sugar;
     Options_ := {| Prefix := "rad_" |} |}.

(** The same with the server unreachable. *)
Definition start_down (r : RadCache) : State :=
  {| rad := r; srv := {| up := false; kv := ∅ |}; trace := [] |}.

End Mem.

(** * Properties of the accessor layer *)

Section CacheProps.
Context {SC : Strconv} {RD : Redis}.

Implicit Types (s : State) (key : string) (err e : error).

(** ** Running the monad *)

Lemma bind_Returns {A B : Type} (m : M A) (f : A -> M B) s a s' :
  m s = Returns a s' -> (m ≫= f) s = f a s'.
Proof. intros H. unfold mbind, M_bind. now rewrite H. Qed.

Lemma bind_Exits {A B : Type} (m : M A) (f : A -> M B) s n s' :
  m s = Exits n s' -> (m ≫= f) s = Exits n s'.
Proof. intros H. unfold mbind, M_bind. now rewrite H. Qed.

Lemma bind_Panics {A B : Type} (m : M A) (f : A -> M B) s s' :
  m s = Panics s' -> (m ≫= f) s = Panics s'.
Proof. intros H. unfold mbind, M_bind. now rewrite H. Qed.

Lemma call_attached {R : Type} (c : Call) (run : server -> R * server) s cl :
  Db (rad s) = Some cl ->
  call c run s = Returns (fst (run (srv s))) (sent c (snd (run (srv s))) s).
Proof. intros H. unfold call. rewrite H. now destruct (run (srv s)). Qed.

Lemma call_nil {R : Type} (c : Call) (run : server -> R * server) s :
  Db (rad s) = None -> call c run s = Panics s.
Proof. intros H. unfold call. now rewrite H. Qed.

Lemma Error_sink err s l :
  Logger (rad s) = Some l -> Error err s = Returns tt (emit (ZapError l err) s).
Proof.
  intros H. unfold Error, mbind, M_bind, self, Logger_Error. now rewrite H, H.
Qed.

Lemma Error_nil err s :
  Logger (rad s) = None -> Error err s = Exits 1 (emit (StdLog err) s).
Proof. intros H. unfold Error, mbind, M_bind, self, log_Fatal. now rewrite H. Qed.

Lemma Logger_Error_sink err s l :
  Logger (rad s) = Some l -> Logger_Error err s = Returns tt (emit (ZapError l err) s).
Proof. intros H. unfold Logger_Error. now rewrite H. Qed.

Lemma Logger_Error_nil err s :
  Logger (rad s) = None -> Logger_Error err s = Panics s.
Proof. intros H. unfold Logger_Error. now rewrite H. Qed.

Lemma Db_Get_attached k s cl :
  Db (rad s) = Some cl ->
  Db_Get k s = Returns (StringCmd_of (fst (redis_GET k (srv s))))
                       (sent (GET k) (snd (redis_GET k (srv s))) s).
Proof.
  intros H. unfold Db_Get. now rewrite (bind_Returns _ _ _ _ _ (call_attached _ _ _ _ H)).
Qed.

Lemma Db_Set_attached k a exp s cl :
  Db (rad s) = Some cl ->
  Db_Set k a exp s = Returns (StatusCmd_of (fst (redis_SET k a exp (srv s))))
                             (sent (SET k a exp) (snd (redis_SET k a exp (srv s))) s).
Proof.
  intros H. unfold Db_Set. now rewrite (bind_Returns _ _ _ _ _ (call_attached _ _ _ _ H)).
Qed.

Lemma Db_Del_attached ks s cl :
  Db (rad s) = Some cl ->
  Db_Del ks s = Returns (IntCmd_of (fst (redis_DEL ks (srv s))))
                        (sent (DEL ks) (snd (redis_DEL ks (srv s))) s).
Proof.
  intros H. unfold Db_Del. now rewrite (bind_Returns _ _ _ _ _ (call_attached _ _ _ _ H)).
Qed.

Lemma Db_Exists_attached ks s cl :
  Db (rad s) = Some cl ->
  Db_Exists ks s = Returns (IntCmd_of (fst (redis_EXISTS ks (srv s))))
                           (sent (EXISTS ks) (snd (redis_EXISTS ks (srv s))) s).
Proof.
  intros H. unfold Db_Exists. now rewrite (bind_Returns _ _ _ _ _ (call_attached _ _ _ _ H)).
Qed.

Lemma Db_nil k a exp ks s :
  Db (rad s) = None ->
  Db_Get k s = Panics s /\ Db_Set k a exp s = Panics s /\
  Db_Del ks s = Panics s /\ Db_Exists ks s = Panics s.
Proof.
  intros H. unfold Db_Get, Db_Set, Db_Del, Db_Exists.
  repeat split; apply bind_Panics, call_nil, H.
Qed.

Lemma self_bind {A : Type} (f : RadCache -> M A) s : (self ≫= f) s = f (rad s) s.
Proof. reflexivity. Qed.

Lemma StringCmd_read_err {A : Type} (parse : string -> A + error) (zero : A) e :
  StringCmd_read parse zero (StringCmd_of (inr e)) = (zero, Some e).
Proof. reflexivity. Qed.

(** The loop of [DelAny] prefixes every key, in order. *)
Lemma DelAny_keys_map (prefix : string) (key keys : list string) :
  DelAny_keys prefix key keys = keys ++ map (fun v => prefix +:+ v) key.
Proof.
  revert keys. induction key as [|v key IH]; intros keys; simpl.
  - now rewrite app_nil_r.
  - rewrite IH, <- app_assoc. reflexivity.
Qed.

Lemma store_calls_app (t u : list Event) :
  store_calls (t ++ u) = store_calls t ++ store_calls u.
Proof.
  induction t as [|[c|l e|e] t IH]; simpl; auto. now rewrite IH.
Qed.

Lemma store_calls_snoc_other (t : list Event) (ev : Event) :
  (forall c, ev <> StoreCall c) -> store_calls (t ++ [ev]) = store_calls t.
Proof.
  intros H. rewrite store_calls_app. destruct ev as [c| |]; simpl.
  - now destruct (H c).
  - apply app_nil_r.
  - apply app_nil_r.
Qed.

Lemma store_calls_snoc (t : list Event) (c : Call) :
  store_calls (t ++ [StoreCall c]) = store_calls t ++ [c].
Proof. now rewrite store_calls_app. Qed.

Lemma sink_app (t u : list Event) : sink (t ++ u) = sink t ++ sink u.
Proof.
  induction t as [|[c|l e|e] t IH]; simpl; auto. now rewrite IH.
Qed.

(** One step of a method body on a handle with a client. *)
Ltac fetch H :=
  rewrite self_bind;
  first [ erewrite bind_Returns by (eapply Db_Get_attached; exact H)
        | erewrite bind_Returns by (eapply Db_Del_attached; exact H)
        | erewrite bind_Returns by (eapply Db_Exists_attached; exact H)
        | erewrite Db_Set_attached by exact H ].

(** ** Diagnostic routing *)

(** C2: [Error] hands the error to the zap logger when one is attached and
    the call returns; with no logger it prints the error on the standard
    logger and the process exits with status 1. *)
Theorem Error_routes_or_terminates (err : error) (s : State) :
  match Logger (rad s) with
  | Some l => Error err s = Returns tt (emit (ZapError l err) s)
  | None => Error err s = Exits 1 (emit (StdLog err) s)
  end.
Proof.
  destruct (Logger (rad s)) as [l|] eqn:Hl.
  - now apply Error_sink.
  - now apply Error_nil.
Qed.

(** C3: on a handle with a client and no logger, a failed GET makes
    [GetInt], [GetInt64], [GetBool], [GetFloat32] and [GetFloat64] panic on
    the nil logger, while [Get] and [GetString] print the error and exit;
    [Set_] on a serialization failure, [Del] and [DelAny] on a failed DEL
    exit in the same way. *)
Theorem typed_getters_panic_without_sink (key : string) (s : State) (c : Client) (e : error) :
  Db (rad s) = Some c ->
  Logger (rad s) = None ->
  fst (redis_GET (physical (rad s) key) (srv s)) = inr e ->
  let s' := sent (GET (physical (rad s) key))
                 (snd (redis_GET (physical (rad s) key) (srv s))) s in
  (GetInt key s = Panics s' /\ GetInt64 key s = Panics s' /\
   GetBool key s = Panics s' /\ GetFloat32 key s = Panics s' /\
   GetFloat64 key s = Panics s') /\
  (Get key s = Exits 1 (emit (StdLog e) s') /\
   GetString key s = Exits 1 (emit (StdLog e) s')) /\
  (forall v exp e', snd (Marshal v) = Some e' ->
     Set_ key v exp s = Exits 1 (emit (StdLog e') s)) /\
  (forall e', fst (redis_DEL [physical (rad s) key] (srv s)) = inr e' ->
     Del key s = Exits 1 (emit (StdLog e')
       (sent (DEL [physical (rad s) key])
             (snd (redis_DEL [physical (rad s) key] (srv s))) s))) /\
  (forall keys e',
     fst (redis_DEL (map (physical (rad s)) keys) (srv s)) = inr e' ->
     DelAny keys s = Exits 1 (emit (StdLog e')
       (sent (DEL (map (physical (rad s)) keys))
             (snd (redis_DEL (map (physical (rad s)) keys) (srv s))) s))).
Proof.
  intros Hdb Hlog Hget s'. unfold physical in *.
  assert (Hpanic : forall A (x : A), (Logger_Error e;; mret x) s' = Panics s').
  { intros A x. apply bind_Panics, Logger_Error_nil. exact Hlog. }
  assert (Hexit : forall A (x : A) e' d cl,
             (Error e';; mret x) (sent cl d s) = Exits 1 (emit (StdLog e') (sent cl d s))).
  { intros A x e' d cl. apply bind_Exits, Error_nil. exact Hlog. }
  repeat split.
  - unfold GetInt. fetch Hdb. rewrite Hget. apply Hpanic.
  - unfold GetInt64. fetch Hdb. rewrite Hget. apply Hpanic.
  - unfold GetBool. fetch Hdb. rewrite Hget. apply Hpanic.
  - unfold GetFloat32. fetch Hdb. rewrite Hget. apply Hpanic.
  - unfold GetFloat64. fetch Hdb. rewrite Hget. apply Hpanic.
  - unfold Get. fetch Hdb. rewrite Hget. apply Hexit.
  - unfold GetString. fetch Hdb. rewrite Hget. apply Hexit.
  - intros v exp e' Hm. unfold Set_. destruct (Marshal v) as [val [e0|]]; [|discriminate].
    simpl in Hm. injection Hm as ->. apply bind_Exits, Error_nil. exact Hlog.
  - intros e' Hdel. unfold Del. fetch Hdb. rewrite Hdel. apply Hexit.
  - intros keys e' Hdel. unfold DelAny. rewrite self_bind.
    rewrite DelAny_keys_map. simpl app.
    erewrite bind_Returns by (eapply Db_Del_attached; exact Hdb).
    rewrite Hdel. apply Hexit.
Qed.

(** ** The generic setter *)

(** C4, as the code has it: when serialization of the value fails, [Set_]
    sends nothing to the store and leaves the server and the handle as they
    were, with or without a client.  With a logger attached the call
    returns a command whose error is the serialization error, and the
    logger has received that error, once.  With no logger the call does not
    return: the error is printed on the standard logger and the process
    exits with status 1, the zap logger having received nothing. *)
Theorem Set_serialization_failure (key : string) (v : value) (exp : Duration)
    (s : State) (err : error) :
  snd (Marshal v) = Some err ->
  let o := Set_ key v exp s in
  srv (final o) = srv s /\
  rad (final o) = rad s /\
  store_calls (trace (final o)) = store_calls (trace s) /\
  match Logger (rad s) with
  | Some l =>
      exists cmd : StatusCmd,
        o = Returns cmd (emit (ZapError l err) s) /\
        StatusCmd_err cmd = Some err /\
        StatusCmd_val cmd = EmptyString /\
        sink (trace (final o)) = sink (trace s) ++ [(l, err)]
  | None =>
      o = Exits 1 (emit (StdLog err) s) /\
      sink (trace (final o)) = sink (trace s)
  end.
Proof.
  intros Hm o. subst o. unfold Set_.
  destruct (Marshal v) as [val [e0|]]; [|discriminate].
  simpl in Hm. injection Hm as ->.
  destruct (Logger (rad s)) as [l|] eqn:Hl.
  - rewrite (bind_Returns _ _ _ _ _ (Error_sink err s l Hl)).
    cbn. repeat split; [apply store_calls_snoc_other; discriminate|].
    exists (StatusCmd_SetErr NewStatusCmd err). repeat split. apply sink_app.
  - rewrite (bind_Exits _ _ _ _ _ (Error_nil err s Hl)).
    cbn. repeat split; [apply store_calls_snoc_other; discriminate|].
    rewrite sink_app. apply app_nil_r.
Qed.

(** ** Physical keys *)

Lemma quiet_ret {A : Type} (a : A) : quiet (mret a).
Proof. intros s. split; reflexivity. Qed.

Lemma quiet_Error err : quiet (Error err).
Proof.
  intros s. destruct (Logger (rad s)) as [l|] eqn:Hl.
  - rewrite (Error_sink _ _ _ Hl). split; [reflexivity|].
    apply store_calls_snoc_other; discriminate.
  - rewrite (Error_nil _ _ Hl). split; [reflexivity|].
    apply store_calls_snoc_other; discriminate.
Qed.

Lemma quiet_Logger_Error err : quiet (Logger_Error err).
Proof.
  intros s. destruct (Logger (rad s)) as [l|] eqn:Hl.
  - rewrite (Logger_Error_sink _ _ _ Hl). split; [reflexivity|].
    apply store_calls_snoc_other; discriminate.
  - rewrite (Logger_Error_nil _ _ Hl). split; reflexivity.
Qed.

Lemma quiet_bind {A B : Type} (m : M A) (f : A -> M B) :
  quiet m -> (forall a, quiet (f a)) -> quiet (m ≫= f).
Proof.
  intros Hm Hf s. specialize (Hm s). unfold mbind, M_bind.
  destruct (m s) as [a s1|n s1|s1]; simpl in *; auto.
  destruct (Hf a s1) as [H1 H2]. destruct Hm as [H3 H4]. split; congruence.
Qed.

Lemma sends_call {R : Type} (c : Call) (run : server -> R * server) s :
  sends c (call c run) s.
Proof.
  unfold sends, call, attached. destruct (Db (rad s)); simpl.
  - destruct (run (srv s)); simpl. split; [reflexivity|apply store_calls_snoc].
  - split; [reflexivity|now rewrite app_nil_r].
Qed.

Lemma sends_bind {A B : Type} (c : Call) (m : M A) (f : A -> M B) s :
  sends c m s -> (forall a, quiet (f a)) -> sends c (m ≫= f) s.
Proof.
  unfold sends. intros Hm Hf. unfold mbind, M_bind.
  destruct (m s) as [a s1|n s1|s1]; simpl in *; auto.
  destruct (Hf a s1) as [H1 H2]. destruct Hm as [H3 H4]. split; congruence.
Qed.

Lemma sends_self {A : Type} (c : Call) (f : RadCache -> M A) s :
  sends c (f (rad s)) s -> sends c (self ≫= f) s.
Proof. intros H. unfold sends. rewrite self_bind. apply H. Qed.

Ltac quiet_tac :=
  repeat first
    [ apply quiet_ret | apply quiet_Error | apply quiet_Logger_Error
    | apply quiet_bind; [|intros ?]
    | progress cbv zeta
    | match goal with
      | |- quiet (match ?x with _ => _ end) => destruct x
      | |- quiet (let (_, _) := ?x in _) => destruct x
      end ].

Ltac sends_tac :=
  unfold GetStringOrDefault, GetIntOrDefault, GetInt64OrDefault, GetBoolOrDefault,
    GetFloat32OrDefault, GetFloat64OrDefault;
  unfold SetString, SetInt, SetInt64, SetBool, SetFloat32, SetFloat64, Get, GetString,
    GetInt, GetInt64, GetBool, GetFloat32, GetFloat64, Del, DelAny, Exist;
  unfold Db_Set, Db_Get, Db_Del, Db_Exists;
  repeat first
    [ apply sends_call
    | apply sends_self
    | apply sends_bind; [|intros ?; quiet_tac] ].

(** C5: every call of a method sends at most one command, one exactly when
    the handle has a client and the method gets as far as the store; the
    keys of that command are the prefix of the handle followed by each
    logical key, in order; and the options of the handle, that is its
    prefix, are the same after the call. *)
Theorem physical_key_is_prefix_plus_key (op : Op) (s : State) :
  Options_ (rad (after op s)) = Options_ (rad s) /\
  Prefix (Options_ (rad (after op s))) = Prefix (Options_ (rad s)) /\
  exists cs : list Call,
    store_calls (trace (after op s)) = store_calls (trace s) ++ cs /\
    length cs = (if attached s && reaches_store op then 1 else 0) /\
    Forall (fun c => call_keys c =
                     map (fun k => Prefix (Options_ (rad s)) +:+ k) (logical_keys op)) cs.
Proof.
  assert (Hgen : forall c : Call,
            call_keys c = map (fun k => Prefix (Options_ (rad s)) +:+ k) (logical_keys op) ->
            reaches_store op = true ->
            (rad (after op s) = rad s /\
             store_calls (trace (after op s)) =
             store_calls (trace s) ++ (if attached s then [c] else [])) ->
            Options_ (rad (after op s)) = Options_ (rad s) /\
            Prefix (Options_ (rad (after op s))) = Prefix (Options_ (rad s)) /\
            exists cs : list Call,
              store_calls (trace (after op s)) = store_calls (trace s) ++ cs /\
              length cs = (if attached s && reaches_store op then 1 else 0) /\
              Forall (fun c => call_keys c =
                        map (fun k => Prefix (Options_ (rad s)) +:+ k) (logical_keys op)) cs).
  { intros c Hk Hr [H1 H2]. split; [now rewrite H1|]. split; [now rewrite H1|].
    exists (if attached s then [c] else []). split; [exact H2|].
    rewrite Hr. destruct (attached s); simpl; split; auto. }
  destruct op; simpl after.
  4-25: eapply Hgen; [ | reflexivity | sends_tac ];
    simpl; rewrite ?DelAny_keys_map; reflexivity.
  (* attaching a client, attaching a logger *)
  1-2: split; [reflexivity|]; split; [reflexivity|]; exists [];
    rewrite app_nil_r, andb_false_r; auto.
  (* the generic setter *)
  unfold Set_, reaches_store. destruct (Marshal v) as [val [err|]]; simpl snd.
  - destruct (quiet_bind (Error err) (fun _ => mret (StatusCmd_SetErr NewStatusCmd err))
                (quiet_Error err) (fun _ => quiet_ret _) s) as [H1 H2].
    split; [now rewrite H1|]. split; [now rewrite H1|].
    exists []. rewrite app_nil_r, andb_false_r. auto.
  - assert (H : sends (SET (Prefix (Options_ (rad s)) +:+ key) (ArgString val) exp)
                  (self ≫= fun r => Db_Set (Prefix (Options_ r) +:+ key) (ArgString val) exp) s)
      by sends_tac.
    destruct H as [H1 H2].
    split; [now rewrite H1|]. split; [now rewrite H1|].
    exists (if attached s then [SET (Prefix (Options_ (rad s)) +:+ key) (ArgString val) exp] else []).
    split; [exact H2|]. rewrite andb_true_r. destruct (attached s); simpl; auto.
Qed.

(** ** Getters *)

(** C6, as the code has it: on a handle with a client and a logger, each
    getter with a fallback sends the GET of its getter and returns: the
    fetched value when the store answers with a text that the getter
    accepts, and the fallback when the store call fails or the text does
    not parse, after the logger has received the error.  No error reaches
    the caller, and the fallback is returned on an error only. *)
Theorem OrDefault_returns_fallback_on_error (key : string) (s : State) (c : Client)
    (l : SugaredLogger) :
  Db (rad s) = Some c ->
  Logger (rad s) = Some l ->
  let cmd := StringCmd_of (fst (redis_GET (physical (rad s) key) (srv s))) in
  let s' := sent (GET (physical (rad s) key))
                 (snd (redis_GET (physical (rad s) key) (srv s))) s in
  (forall val,
     match Result cmd with
     | (result, None) => GetStringOrDefault key val s = Returns result s'
     | (_, Some e) => GetStringOrDefault key val s = Returns val (emit (ZapError l e) s')
     end) /\
  (forall val,
     match StringCmd_Int cmd with
     | (result, None) => GetIntOrDefault key val s = Returns result s'
     | (_, Some e) => GetIntOrDefault key val s = Returns val (emit (ZapError l e) s')
     end) /\
  (forall val,
     match StringCmd_Int64 cmd with
     | (result, None) => GetInt64OrDefault key val s = Returns result s'
     | (_, Some e) => GetInt64OrDefault key val s = Returns val (emit (ZapError l e) s')
     end) /\
  (forall val,
     match StringCmd_Bool cmd with
     | (result, None) => GetBoolOrDefault key val s = Returns result s'
     | (_, Some e) => GetBoolOrDefault key val s = Returns val (emit (ZapError l e) s')
     end) /\
  (forall val,
     match StringCmd_Float32 cmd with
     | (result, None) => GetFloat32OrDefault key val s = Returns result s'
     | (_, Some e) => GetFloat32OrDefault key val s = Returns val (emit (ZapError l e) s')
     end) /\
  (forall val,
     match StringCmd_Float64 cmd with
     | (result, None) => GetFloat64OrDefault key val s = Returns result s'
     | (_, Some e) => GetFloat64OrDefault key val s = Returns val (emit (ZapError l e) s')
     end).
Proof.
  intros Hdb Hlog cmd s'. unfold physical in *.
  assert (Hl : Logger (rad s') = Some l) by exact Hlog.
  assert (Hlog_err : forall (A : Type) (x : A) e,
            (Logger_Error e;; mret x) s' = Returns x (emit (ZapError l e) s')).
  { intros A x e. now rewrite (bind_Returns _ _ _ _ _ (Logger_Error_sink e s' l Hl)). }
  assert (Herr : forall (A : Type) (x : A) e,
            (Error e;; mret x) s' = Returns x (emit (ZapError l e) s')).
  { intros A x e. now rewrite (bind_Returns _ _ _ _ _ (Error_sink e s' l Hl)). }
  repeat split; intros val.
  - assert (HG : GetString key s =
                 match Result cmd with
                 | (r, None) => Returns (r, None) s'
                 | (_, Some e) => Returns (EmptyString, Some e) (emit (ZapError l e) s')
                 end).
    { unfold GetString. fetch Hdb. fold cmd s'.
      destruct (Result cmd) as [r [e|]]; [apply Herr|reflexivity]. }
    unfold GetStringOrDefault.
    destruct (Result cmd) as [r [e|]]; now rewrite (bind_Returns _ _ _ _ _ HG).
  - assert (HG : GetInt key s =
                 match StringCmd_Int cmd with
                 | (r, None) => Returns (r, None) s'
                 | (_, Some e) => Returns ((-1)%Z, Some e) (emit (ZapError l e) s')
                 end).
    { unfold GetInt. fetch Hdb. fold cmd s'.
      destruct (StringCmd_Int cmd) as [r [e|]]; [apply Hlog_err|reflexivity]. }
    unfold GetIntOrDefault.
    destruct (StringCmd_Int cmd) as [r [e|]]; now rewrite (bind_Returns _ _ _ _ _ HG).
  - assert (HG : GetInt64 key s =
                 match StringCmd_Int64 cmd with
                 | (r, None) => Returns (r, None) s'
                 | (_, Some e) => Returns ((-1)%Z, Some e) (emit (ZapError l e) s')
                 end).
    { unfold GetInt64. fetch Hdb. fold cmd s'.
      destruct (StringCmd_Int64 cmd) as [r [e|]]; [apply Hlog_err|reflexivity]. }
    unfold GetInt64OrDefault.
    destruct (StringCmd_Int64 cmd) as [r [e|]]; now rewrite (bind_Returns _ _ _ _ _ HG).
  - assert (HG : GetBool key s =
                 match StringCmd_Bool cmd with
                 | (r, None) => Returns (r, None) s'
                 | (_, Some e) => Returns (false, Some e) (emit (ZapError l e) s')
                 end).
    { unfold GetBool. fetch Hdb. fold cmd s'.
      destruct (StringCmd_Bool cmd) as [r [e|]]; [apply Hlog_err|reflexivity]. }
    unfold GetBoolOrDefault.
    destruct (StringCmd_Bool cmd) as [r [e|]]; now rewrite (bind_Returns _ _ _ _ _ HG).
  - assert (HG : GetFloat32 key s =
                 match StringCmd_Float32 cmd with
                 | (r, None) => Returns (r, None) s'
                 | (_, Some e) => Returns (float32_zero, Some e) (emit (ZapError l e) s')
                 end).
    { unfold GetFloat32. fetch Hdb. fold cmd s'.
      destruct (StringCmd_Float32 cmd) as [r [e|]]; [apply Hlog_err|reflexivity]. }
    unfold GetFloat32OrDefault.
    destruct (StringCmd_Float32 cmd) as [r [e|]]; now rewrite (bind_Returns _ _ _ _ _ HG).
  - assert (HG : GetFloat64 key s =
                 match StringCmd_Float64 cmd with
                 | (r, None) => Returns (r, None) s'
                 | (_, Some e) => Returns (float64_zero, Some e) (emit (ZapError l e) s')
                 end).
    { unfold GetFloat64. fetch Hdb. fold cmd s'.
      destruct (StringCmd_Float64 cmd) as [r [e|]]; [apply Hlog_err|reflexivity]. }
    unfold GetFloat64OrDefault.
    destruct (StringCmd_Float64 cmd) as [r [e|]]; now rewrite (bind_Returns _ _ _ _ _ HG).
Qed.

Lemma fails_with_Error {A : Type} (sentinel : A) (err : error) s s' :
  Logger (rad s') = Logger (rad s) ->
  match Logger (rad s) with
  | Some l => (Error err;; mret (sentinel, Some err)) s'
              = Returns (sentinel, Some err) (emit (ZapError l err) s')
  | None => forall a s'', (Error err;; mret (sentinel, Some err)) s' <> Returns a s''
  end.
Proof.
  intros Hl. destruct (Logger (rad s)) as [l|].
  - now rewrite (bind_Returns _ _ _ _ _ (Error_sink err s' l Hl)).
  - intros a s''. now rewrite (bind_Exits _ _ _ _ _ (Error_nil err s' Hl)).
Qed.

Lemma fails_with_Logger_Error {A : Type} (sentinel : A) (err : error) s s' :
  Logger (rad s') = Logger (rad s) ->
  match Logger (rad s) with
  | Some l => (Logger_Error err;; mret (sentinel, Some err)) s'
              = Returns (sentinel, Some err) (emit (ZapError l err) s')
  | None => forall a s'', (Logger_Error err;; mret (sentinel, Some err)) s' <> Returns a s''
  end.
Proof.
  intros Hl. destruct (Logger (rad s)) as [l|].
  - now rewrite (bind_Returns _ _ _ _ _ (Logger_Error_sink err s' l Hl)).
  - intros a s''. now rewrite (bind_Panics _ _ _ _ (Logger_Error_nil err s' Hl)).
Qed.

(** C7, as the code has it: on a handle with a client and a logger, a
    getter whose reply carries an error (from the store, or from parsing
    the stored text) logs that error and returns it beside the sentinel of
    its type: the empty string, -1 for both integer widths, 0.0 for both
    float widths, false.  On a handle with a client and no logger the
    getter does not return at all, so no sentinel comes back. *)
Theorem getters_return_sentinel_on_failure (key : string) (s : State) (c : Client) :
  Db (rad s) = Some c ->
  let cmd := StringCmd_of (fst (redis_GET (physical (rad s) key) (srv s))) in
  let s' := sent (GET (physical (rad s) key))
                 (snd (redis_GET (physical (rad s) key) (srv s))) s in
  (forall err, snd (Result cmd) = Some err ->
     fails_with (GetString key) s s' EmptyString err) /\
  (forall err, snd (StringCmd_Int cmd) = Some err ->
     fails_with (GetInt key) s s' (-1)%Z err) /\
  (forall err, snd (StringCmd_Int64 cmd) = Some err ->
     fails_with (GetInt64 key) s s' (-1)%Z err) /\
  (forall err, snd (StringCmd_Float32 cmd) = Some err ->
     fails_with (GetFloat32 key) s s' float32_zero err) /\
  (forall err, snd (StringCmd_Float64 cmd) = Some err ->
     fails_with (GetFloat64 key) s s' float64_zero err) /\
  (forall err, snd (StringCmd_Bool cmd) = Some err ->
     fails_with (GetBool key) s s' false err).
Proof.
  intros Hdb cmd s'. unfold physical in *. unfold fails_with.
  repeat split; intros err Herr.
  - unfold GetString. fetch Hdb. fold cmd s'.
    destruct (Result cmd) as [r [e|]]; [|discriminate]. injection Herr as ->.
    now apply fails_with_Error.
  - unfold GetInt. fetch Hdb. fold cmd s'.
    destruct (StringCmd_Int cmd) as [r [e|]]; [|discriminate]. injection Herr as ->.
    now apply fails_with_Logger_Error.
  - unfold GetInt64. fetch Hdb. fold cmd s'.
    destruct (StringCmd_Int64 cmd) as [r [e|]]; [|discriminate]. injection Herr as ->.
    now apply fails_with_Logger_Error.
  - unfold GetFloat32. fetch Hdb. fold cmd s'.
    destruct (StringCmd_Float32 cmd) as [r [e|]]; [|discriminate]. injection Herr as ->.
    now apply fails_with_Logger_Error.
  - unfold GetFloat64. fetch Hdb. fold cmd s'.
    destruct (StringCmd_Float64 cmd) as [r [e|]]; [|discriminate]. injection Herr as ->.
    now apply fails_with_Logger_Error.
  - unfold GetBool. fetch Hdb. fold cmd s'.
    destruct (StringCmd_Bool cmd) as [r [e|]]; [|discriminate]. injection Herr as ->.
    now apply fails_with_Logger_Error.
Qed.

(** ** Existence and deletion *)

(** C9: on a handle with a client, [Exist] sends one EXISTS for the
    physical key and returns true exactly when the reply is the count 1;
    any other count is false, and so is a failed call, whose command holds
    the count 0. *)
Theorem Exist_iff_count_one (key : string) (s : State) (c : Client) :
  Db (rad s) = Some c ->
  let reply := fst (redis_EXISTS [physical (rad s) key] (srv s)) in
  let s' := sent (EXISTS [physical (rad s) key])
                 (snd (redis_EXISTS [physical (rad s) key] (srv s))) s in
  exists b : bool,
    Exist key s = Returns b s' /\
    (b = true <-> reply = inl 1%Z) /\
    (forall e, reply = inr e -> IntCmd_Val (IntCmd_of reply) = 0%Z /\ b = false).
Proof.
  intros Hdb reply s'. unfold physical in *.
  exists (IntCmd_Val (IntCmd_of reply) =? 1)%Z. split; [|split].
  - unfold Exist. fetch Hdb. fold reply s'.
    now destruct (IntCmd_Val (IntCmd_of reply) =? 1)%Z.
  - destruct reply as [n|e]; simpl.
    + rewrite Z.eqb_eq. split; [now intros ->|now intros [= ->]].
    + split; discriminate.
  - intros e ->. split; reflexivity.
Qed.

(** C10, as the code has it: on a handle with a client, [DelAny] sends
    exactly one DEL whose keys are the given keys, each behind the prefix,
    in order.  A reply without error returns nil.  A failure is logged and
    returned when a logger is attached; when none is, it is neither: the
    error is printed on the standard logger and the process exits. *)
Theorem DelAny_single_batched_delete (keys : list string) (s : State) (c : Client) :
  Db (rad s) = Some c ->
  let pks := map (fun k => Prefix (Options_ (rad s)) +:+ k) keys in
  let s' := sent (DEL pks) (snd (redis_DEL pks (srv s))) s in
  store_calls (trace (final (DelAny keys s))) = store_calls (trace s) ++ [DEL pks] /\
  match fst (redis_DEL pks (srv s)), Logger (rad s) with
  | inl _, _ => DelAny keys s = Returns None s'
  | inr e, Some l => DelAny keys s = Returns (Some e) (emit (ZapError l e) s')
  | inr e, None => DelAny keys s = Exits 1 (emit (StdLog e) s')
  end.
Proof.
  intros Hdb pks s'.
  assert (Hrun : DelAny keys s =
                 match fst (redis_DEL pks (srv s)) with
                 | inl _ => Returns None s'
                 | inr e => (Error e;; mret (Some e)) s'
                 end).
  { unfold DelAny. rewrite self_bind, DelAny_keys_map. simpl app.
    erewrite bind_Returns by (eapply Db_Del_attached; exact Hdb).
    fold pks s'. now destruct (fst (redis_DEL pks (srv s))). }
  rewrite Hrun. destruct (fst (redis_DEL pks (srv s))) as [n|e].
  - split; [apply store_calls_snoc|reflexivity].
  - destruct (Logger (rad s)) as [l|] eqn:Hl.
    + rewrite (bind_Returns _ _ _ _ _ (Error_sink e s' l Hl)). split; [|reflexivity].
      simpl. rewrite store_calls_snoc_other by discriminate. apply store_calls_snoc.
    + rewrite (bind_Exits _ _ _ _ _ (Error_nil e s' Hl)). split; [|reflexivity].
      simpl. rewrite store_calls_snoc_other by discriminate. apply store_calls_snoc.
Qed.

(** ** Where errors go *)

(** C1, as the code has it.  On a handle with a client and a logger:
    a failed GET is logged and returned by [Get] and by every typed getter,
    and the getters with a fallback log it and return the fallback; a failed
    DEL is logged and returned by [Del] and [DelAny]; a serialization
    failure is logged and returned by [Set_].  A failed SET is returned in
    the command by [Set_] and by every typed setter and is not logged, and
    a stored text that does not parse as JSON is returned by [Get] and is
    not logged. *)
Theorem failures_returned_and_routed (key : string) (s : State) (c : Client)
    (l : SugaredLogger) :
  Db (rad s) = Some c ->
  Logger (rad s) = Some l ->
  let pk := physical (rad s) key in
  (forall e, fst (redis_GET pk (srv s)) = inr e ->
     let s' := emit (ZapError l e) (sent (GET pk) (snd (redis_GET pk (srv s))) s) in
     (Get key s = Returns (VNil, Some e) s' /\
      GetString key s = Returns (EmptyString, Some e) s' /\
      GetInt key s = Returns ((-1)%Z, Some e) s' /\
      GetInt64 key s = Returns ((-1)%Z, Some e) s' /\
      GetBool key s = Returns (false, Some e) s' /\
      GetFloat32 key s = Returns (float32_zero, Some e) s' /\
      GetFloat64 key s = Returns (float64_zero, Some e) s') /\
     ((forall val, GetStringOrDefault key val s = Returns val s') /\
      (forall val, GetIntOrDefault key val s = Returns val s') /\
      (forall val, GetInt64OrDefault key val s = Returns val s') /\
      (forall val, GetBoolOrDefault key val s = Returns val s') /\
      (forall val, GetFloat32OrDefault key val s = Returns val s') /\
      (forall val, GetFloat64OrDefault key val s = Returns val s'))) /\
  (forall e, fst (redis_DEL [pk] (srv s)) = inr e ->
     Del key s = Returns (Some e)
       (emit (ZapError l e) (sent (DEL [pk]) (snd (redis_DEL [pk] (srv s))) s))) /\
  (forall keys e,
     fst (redis_DEL (map (physical (rad s)) keys) (srv s)) = inr e ->
     DelAny keys s = Returns (Some e)
       (emit (ZapError l e)
          (sent (DEL (map (physical (rad s)) keys))
                (snd (redis_DEL (map (physical (rad s)) keys) (srv s))) s))) /\
  (forall v exp e, snd (Marshal v) = Some e ->
     Set_ key v exp s = Returns (StatusCmd_SetErr NewStatusCmd e) (emit (ZapError l e) s)) /\
  (forall a exp e, fst (redis_SET pk a exp (srv s)) = inr e ->
     let s' := sent (SET pk a exp) (snd (redis_SET pk a exp (srv s))) s in
     SetArg key a exp s = Returns (StatusCmd_SetErr NewStatusCmd e) s' /\
     (forall v val, a = ArgString val -> Marshal v = (val, None) ->
        Set_ key v exp s = Returns (StatusCmd_SetErr NewStatusCmd e) s') /\
     sink (trace s') = sink (trace s)) /\
  (forall txt e, fst (redis_GET pk (srv s)) = inl txt -> snd (UnMarshal txt) = Some e ->
     let s' := sent (GET pk) (snd (redis_GET pk (srv s))) s in
     Get key s = Returns (VNil, Some e) s' /\ sink (trace s') = sink (trace s)).
Proof.
  intros Hdb Hlog pk. unfold physical in *. subst pk.
  assert (Hsink : forall cl d, sink (trace (sent cl d s)) = sink (trace s)).
  { intros cl d. simpl. induction (trace s) as [|[?|? ?|?] t IH]; simpl; congruence. }
  split.
  { intros e H. set (s' := emit (ZapError l e) (sent _ _ s)).
    assert (HG : Get key s = Returns (VNil, Some e) s' /\
                 GetString key s = Returns (EmptyString, Some e) s' /\
                 GetInt key s = Returns ((-1)%Z, Some e) s' /\
                 GetInt64 key s = Returns ((-1)%Z, Some e) s' /\
                 GetBool key s = Returns (false, Some e) s' /\
                 GetFloat32 key s = Returns (float32_zero, Some e) s' /\
                 GetFloat64 key s = Returns (float64_zero, Some e) s').
    { repeat split;
        unfold Get, GetString, GetInt, GetInt64, GetBool, GetFloat32, GetFloat64;
        fetch Hdb; rewrite H; simpl;
        first [ now erewrite bind_Returns by (apply Error_sink; exact Hlog)
              | now erewrite bind_Returns by (apply Logger_Error_sink; exact Hlog) ]. }
    split; [exact HG|].
    destruct HG as (_ & HS & HI & HI64 & HB & HF32 & HF64).
    unfold GetStringOrDefault, GetIntOrDefault, GetInt64OrDefault, GetBoolOrDefault,
      GetFloat32OrDefault, GetFloat64OrDefault.
    repeat split; intros val.
    - now rewrite (bind_Returns _ _ _ _ _ HS).
    - now rewrite (bind_Returns _ _ _ _ _ HI).
    - now rewrite (bind_Returns _ _ _ _ _ HI64).
    - now rewrite (bind_Returns _ _ _ _ _ HB).
    - now rewrite (bind_Returns _ _ _ _ _ HF32).
    - now rewrite (bind_Returns _ _ _ _ _ HF64). }
  repeat split.
  - intros e Hdel. unfold Del. fetch Hdb. rewrite Hdel. simpl.
    now erewrite bind_Returns by (apply Error_sink; exact Hlog).
  - intros keys e Hdel. unfold DelAny. rewrite self_bind, DelAny_keys_map. simpl app.
    erewrite bind_Returns by (eapply Db_Del_attached; exact Hdb).
    rewrite Hdel. simpl.
    now erewrite bind_Returns by (apply Error_sink; exact Hlog).
  - intros v exp e Hm. unfold Set_. destruct (Marshal v) as [val [e0|]]; [|discriminate].
    simpl in Hm. injection Hm as ->.
    now erewrite bind_Returns by (apply Error_sink; exact Hlog).
  - destruct a; simpl; unfold SetString, SetInt, SetInt64, SetBool, SetFloat32, SetFloat64;
      fetch Hdb; now rewrite H.
  - intros v val -> Hm. unfold Set_. rewrite Hm. fetch Hdb. now rewrite H.
  - apply Hsink.
  - unfold Get. fetch Hdb. rewrite H. simpl.
    destruct (UnMarshal txt) as [r [e0|]] eqn:Hu; [|discriminate].
    simpl in H0. injection H0 as ->. unfold mret, M_ret. f_equal.
    unfold UnMarshal in Hu. destruct (json_Unmarshal _); now inversion Hu.
  - apply Hsink.
Qed.

End CacheProps.

(** * Further properties of the accessor layer *)

Section CacheSteps.
Context {SC : Strconv} {RD : Redis}.

Implicit Types (s : State) (key : string) (err e : error).

(** ** What a call sends and changes *)

Lemma tame_ret {A : Type} (a : A) : tame (mret a).
Proof. intros s. repeat split. Qed.

Lemma tame_Error err : tame (Error err).
Proof.
  intros s. destruct (Logger (rad s)) as [l|] eqn:Hl.
  - rewrite (Error_sink _ _ _ Hl). repeat split.
    apply store_calls_snoc_other; discriminate.
  - rewrite (Error_nil _ _ Hl). repeat split.
    apply store_calls_snoc_other; discriminate.
Qed.

Lemma tame_Logger_Error err : tame (Logger_Error err).
Proof.
  intros s. destruct (Logger (rad s)) as [l|] eqn:Hl.
  - rewrite (Logger_Error_sink _ _ _ Hl). repeat split.
    apply store_calls_snoc_other; discriminate.
  - rewrite (Logger_Error_nil _ _ Hl). repeat split.
Qed.

Lemma tame_bind {A B : Type} (m : M A) (f : A -> M B) :
  tame m -> (forall a, tame (f a)) -> tame (m ≫= f).
Proof.
  intros Hm Hf s. specialize (Hm s). unfold mbind, M_bind.
  destruct (m s) as [a s1|n s1|s1]; simpl in *; auto.
  destruct (Hf a s1) as (H1 & H2 & H3). destruct Hm as (H4 & H5 & H6).
  repeat split; congruence.
Qed.

Lemma issues_call {R : Type} (c : Call) (run : server -> R * server) s :
  (forall d, snd (run d) = answered c d) -> issues c (call c run) s.
Proof.
  intros Hrun. unfold issues, call. destruct (Db (rad s)); simpl.
  - specialize (Hrun (srv s)). destruct (run (srv s)); simpl in *.
    repeat split; [exact Hrun|apply store_calls_snoc].
  - repeat split.
Qed.

Lemma issues_bind {A B : Type} (c : Call) (m : M A) (f : A -> M B) s :
  issues c m s -> (forall a, tame (f a)) -> issues c (m ≫= f) s.
Proof.
  unfold issues. intros [Hr Hm] Hf. unfold mbind, M_bind.
  destruct (m s) as [a s1|n s1|s1]; simpl in *; auto.
  destruct (Hf a s1) as (H1 & H2 & H3).
  split; [congruence|]. destruct (Db (rad s)); destruct Hm; split; congruence.
Qed.

Lemma issues_self {A : Type} (c : Call) (f : RadCache -> M A) s :
  issues c (f (rad s)) s -> issues c (self ≫= f) s.
Proof. intros H. unfold issues. rewrite self_bind. apply H. Qed.

End CacheSteps.

Ltac tame_tac :=
  repeat first
    [ apply tame_ret | apply tame_Error | apply tame_Logger_Error
    | apply tame_bind; [|intros ?]
    | progress cbv zeta
    | match goal with
      | |- tame (match ?x with _ => _ end) => destruct x
      | |- tame (let (_, _) := ?x in _) => destruct x
      end ].

Ltac issues_tac :=
  unfold GetStringOrDefault, GetIntOrDefault, GetInt64OrDefault, GetBoolOrDefault,
    GetFloat32OrDefault, GetFloat64OrDefault;
  unfold SetString, SetInt, SetInt64, SetBool, SetFloat32, SetFloat64, Get, GetString,
    GetInt, GetInt64, GetBool, GetFloat32, GetFloat64, Del, DelAny, Exist;
  unfold Db_Set, Db_Get, Db_Del, Db_Exists;
  repeat first
    [ apply issues_call; intros ?; reflexivity
    | apply issues_self
    | apply issues_bind; [|intros ?; tame_tac] ].

Section CacheMore.
Context {SC : Strconv} {RD : Redis}.

Implicit Types (s : State) (key : string) (err e : error).

(** X1: every method other than the two that attach leaves the handle as
    it was.  On a handle with a client it sends exactly the command of its
    kind (the typed setters with their value as it is, the generic setter
    with the JSON text, the getters a GET, the deletions one DEL, [Exist]
    an EXISTS) and the server is left as that one command left it; a
    generic setter whose value does not serialize, and any method on a
    handle without a client, sends nothing and leaves the server alone. *)
Theorem method_sends_its_command (op : Op) (s : State) :
  (if is_attach op then Options_ (rad (after op s)) = Options_ (rad s)
   else rad (after op s) = rad s) /\
  match command (rad s) op, Db (rad s) with
  | Some c, Some _ =>
      srv (after op s) = answered c (srv s) /\
      store_calls (trace (after op s)) = store_calls (trace s) ++ [c]
  | _, _ =>
      srv (after op s) = srv s /\
      store_calls (trace (after op s)) = store_calls (trace s)
  end.
Proof.
  assert (Hgen : forall c : Call,
            command (rad s) op = Some c -> is_attach op = false ->
            (rad (after op s) = rad s /\
             match Db (rad s) with
             | Some _ => srv (after op s) = answered c (srv s) /\
                         store_calls (trace (after op s)) = store_calls (trace s) ++ [c]
             | None => srv (after op s) = srv s /\
                       store_calls (trace (after op s)) = store_calls (trace s)
             end) ->
            (if is_attach op then Options_ (rad (after op s)) = Options_ (rad s)
             else rad (after op s) = rad s) /\
            match command (rad s) op, Db (rad s) with
            | Some c, Some _ =>
                srv (after op s) = answered c (srv s) /\
                store_calls (trace (after op s)) = store_calls (trace s) ++ [c]
            | _, _ =>
                srv (after op s) = srv s /\
                store_calls (trace (after op s)) = store_calls (trace s)
            end).
  { intros c Hc Ha [H1 H2]. rewrite Hc, Ha. split; [exact H1|].
    destruct (Db (rad s)); exact H2. }
  destruct op; simpl after.
  1-2: simpl; repeat split; destruct (Db (rad s)); split; reflexivity.
  2-21, 23: eapply Hgen; [reflexivity|reflexivity|]; issues_tac.
  - (* the generic setter *)
    unfold Set_. simpl is_attach. cbv iota. unfold command.
    destruct (Marshal v) as [val [err|]].
    + destruct (tame_bind (Error err) (fun _ => mret (StatusCmd_SetErr NewStatusCmd err))
                  (tame_Error err) (fun _ => tame_ret _) s) as (H1 & H2 & H3).
      split; [exact H1|]. split; [exact H2|exact H3].
    + assert (H : issues (SET (Prefix (Options_ (rad s)) +:+ key) (ArgString val) exp)
                    (self ≫= fun r => Db_Set (Prefix (Options_ r) +:+ key) (ArgString val) exp) s)
        by issues_tac.
      destruct H as [H1 H2]. split; [exact H1|]. now destruct (Db (rad s)).
  - (* the batched deletion *)
    eapply Hgen; [reflexivity|reflexivity|].
    unfold DelAny. apply issues_self. cbv zeta. rewrite DelAny_keys_map. cbn [app].
    unfold Db_Del. issues_tac.
Qed.

(** X2: on a handle without a client, as [NewDefault] and [New] build it,
    every method that would address the store panics on the nil client,
    with nothing sent, nothing logged and the state as it was. *)
Theorem method_without_client_panics (op : Op) (s : State) (c : Call) :
  Db (rad s) = None ->
  command (rad s) op = Some c ->
  run op s = Panics s.
Proof.
  intros Hdb Hc.
  assert (HG : forall k, Db_Get k s = Panics s)
    by (intros k; apply (Db_nil k (ArgBool true) 0%Z [] s Hdb)).
  assert (HS : forall k a (x : Duration), Db_Set k a x s = Panics s)
    by (intros k a x; apply (Db_nil k a x [] s Hdb)).
  assert (HD : forall ks, Db_Del ks s = Panics s)
    by (intros ks; apply (Db_nil EmptyString (ArgBool true) 0%Z ks s Hdb)).
  assert (HE : forall ks, Db_Exists ks s = Panics s)
    by (intros ks; apply (Db_nil EmptyString (ArgBool true) 0%Z ks s Hdb)).
  destruct op; simpl in Hc; try discriminate; simpl run;
    unfold GetStringOrDefault, GetIntOrDefault, GetInt64OrDefault, GetBoolOrDefault,
      GetFloat32OrDefault, GetFloat64OrDefault;
    unfold Set_, SetString, SetInt, SetInt64, SetBool, SetFloat32, SetFloat64, Get, GetString,
      GetInt, GetInt64, GetBool, GetFloat32, GetFloat64, Del, DelAny, Exist;
    try (destruct (Marshal v) as [val [err|]]; [discriminate|]);
    repeat first
      [ rewrite self_bind
      | rewrite HS | rewrite (bind_Panics _ _ _ _ (HG _))
      | rewrite (bind_Panics _ _ _ _ (HD _)) | rewrite (bind_Panics _ _ _ _ (HE _))
      | erewrite bind_Panics; [reflexivity|] ];
    reflexivity.
Qed.

(** X3: [Del] is [DelAny] with the one key: the same command, the same
    routing of a failure, the same result, in every state. *)
Theorem Del_is_DelAny_singleton (key : string) (s : State) :
  Del key s = DelAny [key] s.
Proof. reflexivity. Qed.

(** ** Reads that succeed *)

Lemma get_reply key s cl :
  Db (rad s) = Some cl ->
  forall {A : Type} (f : StringCmd -> M A),
    (r ← self; cmd ← Db_Get (Prefix (Options_ r) +:+ key); f cmd) s
    = f (StringCmd_of (fst (redis_GET (physical (rad s) key) (srv s))))
        (sent (GET (physical (rad s) key))
              (snd (redis_GET (physical (rad s) key) (srv s))) s).
Proof.
  intros Hdb A f. rewrite self_bind.
  now erewrite bind_Returns by (eapply Db_Get_attached; exact Hdb).
Qed.

(** X4: on a handle with a client, when the store answers the GET with a
    text, [GetString] returns that text, [Get] returns what [UnMarshal]
    makes of it, and each typed getter whose [strconv] parse accepts the
    text returns the parsed value with a nil error.  Nothing is logged, and
    no logger is needed: the logger is only touched on a failure. *)
Theorem getters_return_the_stored_value (key : string) (s : State) (c : Client)
    (txt : string) :
  Db (rad s) = Some c ->
  fst (redis_GET (physical (rad s) key) (srv s)) = inl txt ->
  let s' := sent (GET (physical (rad s) key))
                 (snd (redis_GET (physical (rad s) key) (srv s))) s in
  GetString key s = Returns (txt, None) s' /\
  Get key s = Returns (UnMarshal txt) s' /\
  (forall n, Atoi txt = inl n -> GetInt key s = Returns (n, None) s') /\
  (forall n, ParseInt64 txt = inl n -> GetInt64 key s = Returns (n, None) s') /\
  (forall b, ParseBool txt = inl b -> GetBool key s = Returns (b, None) s') /\
  (forall f, ParseFloat32 txt = inl f -> GetFloat32 key s = Returns (f, None) s') /\
  (forall f, ParseFloat64 txt = inl f -> GetFloat64 key s = Returns (f, None) s') /\
  sink (trace s') = sink (trace s).
Proof.
  intros Hdb Hget s'.
  unfold GetString, Get, GetInt, GetInt64, GetBool, GetFloat32, GetFloat64.
  rewrite !(get_reply key s c Hdb), Hget. fold s'.
  unfold StringCmd_Int, StringCmd_Int64, StringCmd_Bool, StringCmd_Float32,
    StringCmd_Float64, StringCmd_read. simpl.
  repeat split; try (intros x ->; reflexivity).
  clear. induction (trace s) as [|[?|? ?|?] t IH]; simpl; congruence.
Qed.

(** X5: when its getter succeeds, a getter with a fallback returns the
    stored value and ignores the fallback. *)
Theorem OrDefault_returns_the_stored_value (key : string) (s : State) (c : Client)
    (txt : string) :
  Db (rad s) = Some c ->
  fst (redis_GET (physical (rad s) key) (srv s)) = inl txt ->
  let s' := sent (GET (physical (rad s) key))
                 (snd (redis_GET (physical (rad s) key) (srv s))) s in
  (forall val, GetStringOrDefault key val s = Returns txt s') /\
  (forall n val, Atoi txt = inl n -> GetIntOrDefault key val s = Returns n s') /\
  (forall n val, ParseInt64 txt = inl n -> GetInt64OrDefault key val s = Returns n s') /\
  (forall b val, ParseBool txt = inl b -> GetBoolOrDefault key val s = Returns b s') /\
  (forall f val, ParseFloat32 txt = inl f -> GetFloat32OrDefault key val s = Returns f s') /\
  (forall f val, ParseFloat64 txt = inl f -> GetFloat64OrDefault key val s = Returns f s').
Proof.
  intros Hdb Hget s'.
  assert (HG : GetString key s = Returns (txt, None) s' /\
               (forall n, Atoi txt = inl n -> GetInt key s = Returns (n, None) s') /\
               (forall n, ParseInt64 txt = inl n -> GetInt64 key s = Returns (n, None) s') /\
               (forall b, ParseBool txt = inl b -> GetBool key s = Returns (b, None) s') /\
               (forall f, ParseFloat32 txt = inl f -> GetFloat32 key s = Returns (f, None) s') /\
               (forall f, ParseFloat64 txt = inl f -> GetFloat64 key s = Returns (f, None) s')).
  { unfold GetString, GetInt, GetInt64, GetBool, GetFloat32, GetFloat64.
    rewrite !(get_reply key s c Hdb), Hget. fold s'.
    unfold StringCmd_Int, StringCmd_Int64, StringCmd_Bool, StringCmd_Float32,
      StringCmd_Float64, StringCmd_read. simpl.
    repeat split; intros x ->; reflexivity. }
  destruct HG as (HS & HI & HI64 & HB & HF32 & HF64).
  unfold GetStringOrDefault, GetIntOrDefault, GetInt64OrDefault, GetBoolOrDefault,
    GetFloat32OrDefault, GetFloat64OrDefault.
  repeat split; intros.
  - now rewrite (bind_Returns _ _ _ _ _ HS).
  - now rewrite (bind_Returns _ _ _ _ _ (HI _ H)).
  - now rewrite (bind_Returns _ _ _ _ _ (HI64 _ H)).
  - now rewrite (bind_Returns _ _ _ _ _ (HB _ H)).
  - now rewrite (bind_Returns _ _ _ _ _ (HF32 _ H)).
  - now rewrite (bind_Returns _ _ _ _ _ (HF64 _ H)).
Qed.

(** X6: a getter with a fallback is no shelter when no logger is attached:
    on a failed GET, [GetStringOrDefault] ends the process through
    [log.Fatal] and the five others panic on the nil logger; none of them
    returns the fallback. *)
Theorem OrDefault_without_sink_does_not_return (key : string) (s : State) (c : Client)
    (e : error) :
  Db (rad s) = Some c ->
  Logger (rad s) = None ->
  fst (redis_GET (physical (rad s) key) (srv s)) = inr e ->
  let s' := sent (GET (physical (rad s) key))
                 (snd (redis_GET (physical (rad s) key) (srv s))) s in
  (forall val, GetStringOrDefault key val s = Exits 1 (emit (StdLog e) s')) /\
  (forall val, GetIntOrDefault key val s = Panics s') /\
  (forall val, GetInt64OrDefault key val s = Panics s') /\
  (forall val, GetBoolOrDefault key val s = Panics s') /\
  (forall val, GetFloat32OrDefault key val s = Panics s') /\
  (forall val, GetFloat64OrDefault key val s = Panics s').
Proof.
  intros Hdb Hlog Hget s'.
  assert (Hpanic : forall A (x : A), (Logger_Error e;; mret x) s' = Panics s').
  { intros A x. apply bind_Panics, Logger_Error_nil. exact Hlog. }
  assert (Hexit : forall A (x : A), (Error e;; mret x) s' = Exits 1 (emit (StdLog e) s')).
  { intros A x. apply bind_Exits, Error_nil. exact Hlog. }
  unfold GetStringOrDefault, GetIntOrDefault, GetInt64OrDefault, GetBoolOrDefault,
    GetFloat32OrDefault, GetFloat64OrDefault.
  repeat split; intros val.
  - apply bind_Exits. unfold GetString. rewrite (get_reply key s c Hdb), Hget. apply Hexit.
  - apply bind_Panics. unfold GetInt. rewrite (get_reply key s c Hdb), Hget. apply Hpanic.
  - apply bind_Panics. unfold GetInt64. rewrite (get_reply key s c Hdb), Hget. apply Hpanic.
  - apply bind_Panics. unfold GetBool. rewrite (get_reply key s c Hdb), Hget. apply Hpanic.
  - apply bind_Panics. unfold GetFloat32. rewrite (get_reply key s c Hdb), Hget. apply Hpanic.
  - apply bind_Panics. unfold GetFloat64. rewrite (get_reply key s c Hdb), Hget. apply Hpanic.
Qed.

(** ** Attaching *)

(** X7: [UseRedis] and [UseZapLogger] each replace one pointer of the
    handle and nothing else, so they can be called in either order, the
    last client or logger given is the one in use, and the prefix given at
    construction stays. *)
Theorem attaching_composes (c c' : Client) (l l' : SugaredLogger) (s : State) :
  (UseRedis c;; UseZapLogger l) s = (UseZapLogger l;; UseRedis c) s /\
  (UseRedis c';; UseRedis c) s = UseRedis c s /\
  (UseZapLogger l';; UseZapLogger l) s = UseZapLogger l s /\
  (UseRedis c;; UseZapLogger l) s
  = Returns tt {| rad := {| Ctx := Ctx (rad s); Db := Some c; Logger := Some l;
                            Options_ := Options_ (rad s) |};
                  srv := srv s; trace := trace s |}.
Proof. repeat split. Qed.

(** ** Keys *)

Lemma append_cancel (p a b : string) : p +:+ a = p +:+ b -> a = b.
Proof. induction p as [|ch p IH]; simpl; [trivial|]. intros [= H]. now apply IH. Qed.

(** X8: under one handle two different logical keys never share a
    physical key, so they never address the same entry of the store. *)
Theorem distinct_keys_distinct_physical_keys (r : RadCache) (k1 k2 : string) :
  k1 <> k2 -> physical r k1 <> physical r k2.
Proof. intros Hne H. apply Hne. exact (append_cancel _ _ _ H). Qed.

End CacheMore.

(** * A handle with client and logger *)

Section CacheSteady.
Context {SC : Strconv} {RD : Redis}.








End CacheSteady.


Section CacheSteadyMethods.
Context {SC : Strconv} {RD : Redis}.



End CacheSteadyMethods.

(** * Properties of the JSON codec *)

(** Turns the boolean tests on a character code into arithmetic. *)
Ltac codes :=
  unfold is_space, is_digit, is_digit19, is_cont, in_range, is_char in *;
  repeat match goal with
    | H : _ && _ = true |- _ => apply andb_true_iff in H; destruct H
    | H : _ || _ = true |- _ => apply orb_true_iff in H; destruct H
    | H : _ && _ = false |- _ => apply andb_false_iff in H; destruct H
    | H : _ || _ = false |- _ => apply orb_false_iff in H; destruct H
    | H : (_ =? _)%N = true |- _ => apply N.eqb_eq in H
    | H : (_ =? _)%N = false |- _ => apply N.eqb_neq in H
    | H : (_ <=? _)%N = true |- _ => apply N.leb_le in H
    | H : (_ <=? _)%N = false |- _ => apply N.leb_gt in H
    | H : (_ <? _)%N = true |- _ => apply N.ltb_lt in H
    | H : (_ <? _)%N = false |- _ => apply N.ltb_ge in H
    end;
  repeat match goal with
    | |- _ /\ _ => split
    | |- _ && _ = true => apply andb_true_iff; split
    | |- _ || _ = false => apply orb_false_iff; split
    | |- (_ =? _)%N = true => apply N.eqb_eq
    | |- (_ =? _)%N = false => apply N.eqb_neq
    | |- (_ <=? _)%N = true => apply N.leb_le
    | |- (_ <=? _)%N = false => apply N.leb_gt
    | |- (_ <? _)%N = true => apply N.ltb_lt
    | |- (_ <? _)%N = false => apply N.ltb_ge
    end;
  try lia.

Section TextProps.

Implicit Types (c b : ascii) (s t r : list ascii).

(** ** Characters *)

Lemma code_byte (n : N) : (n < 256)%N -> code (byte n) = n.
Proof. intros H. unfold code, byte. now apply N_ascii_embedding. Qed.

Lemma byte_code c : byte (code c) = c.
Proof. apply ascii_N_embedding. Qed.

Lemma is_char_eq n c : is_char n c = true -> c = byte n.
Proof.
  unfold is_char. intros H. apply N.eqb_eq in H. rewrite <- H. symmetry. apply byte_code.
Qed.

Lemma skip_space_head c s : is_space c = false -> skip_space (c :: s) = c :: s.
Proof. intros H. simpl. now rewrite H. Qed.

(** ** Numbers *)

Lemma scan_digits_app t r : stop r -> scan_digits (t ++ r) = scan_digits t ++ r.
Proof.
  intros Hr. induction t as [|c t IH]; simpl.
  - destruct r as [|c r]; [reflexivity|]. simpl. destruct Hr as [-> _]. reflexivity.
  - destruct (is_digit c); [exact IH|reflexivity].
Qed.

Lemma scan_digits1_app t r x :
  stop r -> scan_digits1 t = Some x -> scan_digits1 (t ++ r) = Some (x ++ r).
Proof.
  intros Hr. destruct t as [|c t]; simpl; [discriminate|].
  destruct (is_digit c); [|discriminate]. intros [= <-].
  now rewrite scan_digits_app.
Qed.

Lemma scan_exp_app t r x :
  stop r -> scan_exp t = Some x -> scan_exp (t ++ r) = Some (x ++ r).
Proof.
  intros Hr. destruct t as [|c t]; simpl.
  - intros [= <-]. destruct r as [|c r]; [reflexivity|]. simpl.
    destruct Hr as (_ & _ & -> & ->). reflexivity.
  - destruct (is_char 101 c || is_char 69 c).
    + destruct t as [|d t]; simpl; [discriminate|].
      destruct (is_char 43 d || is_char 45 d); intros H;
        [exact (scan_digits1_app t r x Hr H)|exact (scan_digits1_app (d :: t) r x Hr H)].
    + now intros [= <-].
Qed.

Lemma scan_frac_app t r x :
  stop r -> scan_frac t = Some x -> scan_frac (t ++ r) = Some (x ++ r).
Proof.
  intros Hr. destruct t as [|c t]; simpl.
  - intros [= <-]. destruct r as [|c r]; [reflexivity|]. simpl.
    destruct Hr as (_ & -> & -> & ->). reflexivity.
  - destruct (is_char 46 c).
    + destruct (scan_digits1 t) as [y|] eqn:Hy; [|discriminate].
      rewrite (scan_digits1_app _ _ _ Hr Hy). now apply scan_exp_app.
    + intros H. exact (scan_exp_app (c :: t) r x Hr H).
Qed.

Lemma scan_int_app t r x :
  stop r -> scan_int t = Some x -> scan_int (t ++ r) = Some (x ++ r).
Proof.
  intros Hr. destruct t as [|c t]; simpl; [discriminate|].
  destruct (is_char 48 c); [now apply scan_frac_app|].
  destruct (is_digit19 c); [|discriminate].
  rewrite scan_digits_app by exact Hr. now apply scan_frac_app.
Qed.

Lemma scan_number_app t r :
  stop r -> is_number t = true -> scan_number (t ++ r) = Some r.
Proof.
  intros Hr. unfold is_number.
  destruct (scan_number t) as [[|? ?]|] eqn:Hs; try discriminate. intros _.
  destruct t as [|c t]; simpl in *; [discriminate|].
  destruct (is_char 45 c).
  - exact (scan_int_app t r [] Hr Hs).
  - exact (scan_int_app (c :: t) r [] Hr Hs).
Qed.

Lemma number_head t :
  is_number t = true ->
  exists c t', t = c :: t' /\ (is_char 45 c || is_digit c) = true.
Proof.
  unfold is_number. destruct t as [|c t]; simpl; [discriminate|].
  intros H. exists c, t. split; [reflexivity|].
  destruct (is_char 45 c) eqn:Hm; [reflexivity|]. simpl in *.
  destruct (is_char 48 c) eqn:H0.
  - unfold is_digit. codes.
  - destruct (is_digit19 c) eqn:H19; [|discriminate]. unfold is_digit. codes.
Qed.

(** ** String literals *)

Lemma unquote_escape b r :
  (code b <? 128)%N = true ->
  unquote (json_escape b ++ r) = prepend [b] (unquote r).
Proof.
  destruct b as [[] [] [] [] [] [] [] []]; intros H;
    first [discriminate H | reflexivity].
Qed.

Lemma unquote_high c s :
  (code c <? 128)%N = false ->
  unquote (c :: s) =
  match utf8_width c s, s with
  | 2, b1 :: s2 => prepend [c; b1] (unquote s2)
  | 3, b1 :: b2 :: s3 => prepend [c; b1; b2] (unquote s3)
  | 4, b1 :: b2 :: b3 :: s4 => prepend [c; b1; b2; b3] (unquote s4)
  | _, _ => prepend utf8_RuneError (unquote s)
  end.
Proof.
  intros H. cbn [unquote].
  assert (H34 : is_char 34 c = false) by codes.
  assert (H92 : is_char 92 c = false) by codes.
  assert (H32 : (code c <? 32)%N = false) by codes.
  now rewrite H34, H92, H32, H.
Qed.

Lemma utf8_width_2 b0 b1 t t' :
  utf8_width b0 (b1 :: t) = 2 -> utf8_width b0 (b1 :: t') = 2.
Proof.
  unfold utf8_width.
  destruct (in_range 194 223 b0); [destruct (is_cont b1); congruence|].
  destruct (in_range 224 239 b0).
  { destruct t as [|b2 t]; [discriminate|].
    match goal with |- (if ?x then _ else _) = _ -> _ => destruct x; discriminate end. }
  destruct (in_range 240 244 b0); [|discriminate].
  destruct t as [|b2 [|b3 t]]; try discriminate.
  match goal with |- (if ?x then _ else _) = _ -> _ => destruct x; discriminate end.
Qed.

Lemma utf8_width_3 b0 b1 b2 t t' :
  utf8_width b0 (b1 :: b2 :: t) = 3 -> utf8_width b0 (b1 :: b2 :: t') = 3.
Proof.
  unfold utf8_width.
  destruct (in_range 194 223 b0); [destruct (is_cont b1); discriminate|].
  destruct (in_range 224 239 b0); [trivial|].
  destruct (in_range 240 244 b0); [|discriminate].
  destruct t as [|b3 t]; [discriminate|].
  match goal with |- (if ?x then _ else _) = _ -> _ => destruct x; discriminate end.
Qed.

Lemma utf8_width_4 b0 b1 b2 b3 t t' :
  utf8_width b0 (b1 :: b2 :: b3 :: t) = 4 -> utf8_width b0 (b1 :: b2 :: b3 :: t') = 4.
Proof.
  unfold utf8_width.
  destruct (in_range 194 223 b0); [destruct (is_cont b1); discriminate|].
  destruct (in_range 224 239 b0).
  { match goal with |- (if ?x then _ else _) = _ -> _ => destruct x; discriminate end. }
  destruct (in_range 240 244 b0); trivial.
Qed.

Lemma line_sep_bytes b0 b1 b2 :
  is_line_sep b0 b1 b2 = true ->
  b0 = byte 226 /\ b1 = byte 128 /\ (b2 = byte 168 \/ b2 = byte 169).
Proof.
  unfold is_line_sep. intros H.
  apply andb_true_iff in H. destruct H as [H H2].
  apply andb_true_iff in H. destruct H as [H0 H1].
  apply orb_true_iff in H2.
  repeat split; [now apply is_char_eq|now apply is_char_eq|].
  destruct H2 as [H2|H2]; [left|right]; now apply is_char_eq.
Qed.

Lemma unquote_line_sep r :
  unquote (text "\u202" ++ hex (N.land (code (byte 168)) 15) :: r)
  = prepend [byte 226; byte 128; byte 168] (unquote r).
Proof. reflexivity. Qed.

Lemma unquote_par_sep r :
  unquote (text "\u202" ++ hex (N.land (code (byte 169)) 15) :: r)
  = prepend [byte 226; byte 128; byte 169] (unquote r).
Proof. reflexivity. Qed.

(** Reading back a written string body: well-formed UTF-8 comes back
    byte for byte. *)
Lemma unquote_body s :
  utf8_valid s = true ->
  forall r, unquote (json_string_body s ++ byte 34 :: r) = Some (s, r).
Proof.
  remember (length s) as n eqn:Hn. revert s Hn.
  induction n as [n IH] using lt_wf_ind. intros s Hn Hv r.
  destruct s as [|b0 s1]; [reflexivity|].
  cbn [json_string_body utf8_valid] in *.
  destruct (code b0 <? 128)%N eqn:Hlow.
  - rewrite <- app_assoc, unquote_escape by exact Hlow.
    rewrite (IH (length s1)); [reflexivity|simpl in Hn; lia|reflexivity|exact Hv].
  - destruct (utf8_width b0 s1) as [|[|[|[|[|w]]]]] eqn:Hw; try discriminate.
    + destruct s1 as [|b1 s2]; [discriminate|].
      cbn [app]. rewrite unquote_high by exact Hlow.
      rewrite (utf8_width_2 _ _ _ _ Hw).
      rewrite (IH (length s2)); [reflexivity|simpl in Hn; lia|reflexivity|exact Hv].
    + destruct s1 as [|b1 [|b2 s3]]; try discriminate.
      destruct (is_line_sep b0 b1 b2) eqn:Hls.
      * rewrite <- app_assoc, <- app_comm_cons.
        destruct (line_sep_bytes _ _ _ Hls) as (-> & -> & [->| ->]);
          [rewrite unquote_line_sep|rewrite unquote_par_sep];
          (rewrite (IH (length s3)); [reflexivity|simpl in Hn; lia|reflexivity|exact Hv]).
      * cbn [app]. rewrite unquote_high by exact Hlow.
        rewrite (utf8_width_3 _ _ _ _ _ Hw).
        rewrite (IH (length s3)); [reflexivity|simpl in Hn; lia|reflexivity|exact Hv].
    + destruct s1 as [|b1 [|b2 [|b3 s4]]]; try discriminate.
      cbn [app]. rewrite unquote_high by exact Hlow.
      rewrite (utf8_width_4 _ _ _ _ _ _ Hw).
      rewrite (IH (length s4)); [reflexivity|simpl in Hn; lia|reflexivity|exact Hv].
Qed.

End TextProps.

Section JsonProps.
Context {SC : Strconv}.

Implicit Types (v : value) (t r : list ascii).

Lemma value_ind' (P : value -> Prop) :
  P VNil -> (forall b, P (VBool b)) -> (forall n, P (VInt n)) ->
  (forall f, P (VFloat64 f)) -> (forall s, P (VString s)) ->
  (forall l, Forall P l -> P (VSlice l)) ->
  (forall m, Forall (fun kv => P (snd kv)) m -> P (VMap m)) ->
  P VChan -> P VNilSlice -> P VNilMap -> forall v, P v.
Proof.
  intros HNil HBool HInt HFloat HString HSlice HMap HChan HNilSlice HNilMap.
  fix IH 1. intros [ |b|n|f|s|l|m| | | ].
  - exact HNil.
  - apply HBool.
  - apply HInt.
  - apply HFloat.
  - apply HString.
  - apply HSlice. induction l as [|x l IHl]; constructor; [apply IH|exact IHl].
  - apply HMap. induction m as [|[k x] m IHm]; constructor; [apply IH|exact IHm].
  - exact HChan.
  - exact HNilSlice.
  - exact HNilMap.
Qed.

(** ** Maps in canonical order *)

Lemma map_set_last {A : Type} (k : string) (a : A) (m : list (string * A)) :
  forallb (fun k' => String.ltb k' k) (map fst m) = true ->
  map_set k a m = m ++ [(k, a)].
Proof.
  induction m as [|[k' a'] m IH]; simpl; [reflexivity|].
  intros H. apply andb_true_iff in H. destruct H as [Hk Hm].
  unfold String.ltb in Hk. rewrite String.compare_antisym.
  destruct (String.compare k' k); try discriminate. simpl.
  now rewrite IH.
Qed.

Lemma fold_map_set_sorted {A : Type} (m acc : list (string * A)) :
  sorted_keys (map fst m) = true ->
  forallb (fun k => forallb (String.ltb k) (map fst m)) (map fst acc) = true ->
  fold_left (fun a kv => map_set (fst kv) (snd kv) a) m acc = acc ++ m.
Proof.
  revert acc. induction m as [|[k a] m IH]; intros acc Hs Hacc; simpl.
  - now rewrite app_nil_r.
  - simpl in Hs. apply andb_true_iff in Hs. destruct Hs as [Hk Hs].
    rewrite map_set_last.
    + rewrite IH; [now rewrite <- app_assoc|exact Hs|].
      rewrite map_app, forallb_app. simpl. rewrite Hk, andb_true_r.
      clear -Hacc. induction acc as [|[k' a'] acc IHacc]; simpl in *; [reflexivity|].
      apply andb_true_iff in Hacc. destruct Hacc as [H1 H2].
      apply andb_true_iff in H1. destruct H1 as [_ H1].
      now rewrite H1, IHacc.
    + clear -Hacc. induction acc as [|[k' a'] acc IHacc]; simpl in *; [reflexivity|].
      apply andb_true_iff in Hacc. destruct Hacc as [H1 H2].
      apply andb_true_iff in H1. destruct H1 as [H1 _].
      now rewrite H1, IHacc.
Qed.

Lemma sort_keys_sorted {A : Type} (m : list (string * A)) :
  sorted_keys (map fst m) = true -> sort_keys m = m.
Proof. intros H. unfold sort_keys. now rewrite fold_map_set_sorted. Qed.

(** ** One step of the decoder *)

Lemma decode_value_string fuel depth r :
  decode_value (S fuel) depth (byte 34 :: r) =
  match unquote r with
  | Some (t, r') => Some (VString (string_of_list_ascii t), r')
  | None => None
  end.
Proof. reflexivity. Qed.

Lemma decode_value_array fuel depth r :
  (depth <? maxNestingDepth)%N = true ->
  decode_value (S fuel) depth (byte 91 :: r) =
  match skip_space r with
  | c' :: r' =>
      if is_char 93 c' then Some (VSlice [], r')
      else decode_array fuel (depth + 1) (c' :: r') []
  | [] => None
  end.
Proof.
  intros H. cbn [decode_value].
  change (skip_space (byte 91 :: r)) with (byte 91 :: r). cbv iota.
  change (is_char 34 (byte 91)) with false. change (is_char 91 (byte 91)) with true.
  cbv iota. now rewrite H.
Qed.

Lemma decode_value_object fuel depth r :
  (depth <? maxNestingDepth)%N = true ->
  decode_value (S fuel) depth (byte 123 :: r) =
  match skip_space r with
  | c' :: r' =>
      if is_char 125 c' then Some (VMap [], r')
      else decode_object fuel (depth + 1) (c' :: r') []
  | [] => None
  end.
Proof.
  intros H. cbn [decode_value].
  change (skip_space (byte 123 :: r)) with (byte 123 :: r). cbv iota.
  change (is_char 34 (byte 123)) with false. change (is_char 91 (byte 123)) with false.
  change (is_char 123 (byte 123)) with true.
  cbv iota. now rewrite H.
Qed.

Lemma decode_value_number fuel depth c s :
  (is_char 45 c || is_digit c) = true ->
  decode_value (S fuel) depth (c :: s) =
  match scan_number (c :: s) with
  | Some r' =>
      match ParseFloat64 (string_of_list_ascii (token (c :: s) r')) with
      | inl f => Some (VFloat64 f, r')
      | inr _ => None
      end
  | None => None
  end.
Proof.
  intros H. cbn [decode_value].
  assert (Hs : is_space c = false) by (clear -H; codes).
  rewrite (skip_space_head _ _ Hs).
  assert (H34 : is_char 34 c = false) by (clear -H; codes).
  assert (H91 : is_char 91 c = false) by (clear -H; codes).
  assert (H123 : is_char 123 c = false) by (clear -H; codes).
  assert (H110 : is_char 110 c = false) by (clear -H; codes).
  assert (H116 : is_char 116 c = false) by (clear -H; codes).
  assert (H102 : is_char 102 c = false) by (clear -H; codes).
  now rewrite H34, H91, H123, H110, H116, H102.
Qed.

Lemma decode_array_step fuel depth s acc :
  decode_array (S fuel) depth s acc =
  match decode_value fuel depth s with
  | Some (v, r) =>
      match skip_space r with
      | c :: r' =>
          if is_char 44 c then decode_array fuel depth r' (acc ++ [v])
          else if is_char 93 c then Some (VSlice (acc ++ [v]), r')
          else None
      | [] => None
      end
  | None => None
  end.
Proof. reflexivity. Qed.

Lemma decode_object_step fuel depth r acc :
  decode_object (S fuel) depth (byte 34 :: r) acc =
  match unquote r with
  | Some (k, r1) =>
      match skip_space r1 with
      | c :: r2 =>
          if is_char 58 c then
            match decode_value fuel depth r2 with
            | Some (v, r3) =>
                let acc' := map_set (string_of_list_ascii k) v acc in
                match skip_space r3 with
                | d :: r4 =>
                    if is_char 44 d then decode_object fuel depth r4 acc'
                    else if is_char 125 d then Some (VMap acc', r4)
                    else None
                | [] => None
                end
            | None => None
            end
          else None
      | [] => None
      end
  | None => None
  end.
Proof. reflexivity. Qed.

(** ** The encoder's output *)

Lemma sequence_cons {A E : Type} (x : A + E) (l : list (A + E)) (ts : list A) :
  sequence (x :: l) = inl ts ->
  exists a rs, x = inl a /\ sequence l = inl rs /\ ts = a :: rs.
Proof.
  simpl. destruct x as [a|e]; [|discriminate].
  destruct (sequence l) as [rs|e]; [|discriminate].
  intros [= <-]. now exists a, rs.
Qed.

Lemma join_cons t ts : ts <> [] -> join (t :: ts) = t ++ byte 44 :: join ts.
Proof. destruct ts; [congruence|reflexivity]. Qed.

Lemma encode_head v t :
  generic v = true -> encode v = inl t ->
  exists c t', t = c :: t' /\ is_space c = false /\ is_char 93 c = false.
Proof.
  destruct v as [ |b|n|f|s|l|m| | | ]; cbn [generic encode]; intros Hg He; try discriminate.
  - injection He as <-. now eexists _, _.
  - injection He as <-. destruct b; now eexists _, _.
  - destruct (FormatFloat64 f) as [t0|] eqn:Hf; [|discriminate]. injection He as <-.
    destruct (number_head _ (FormatFloat64_number _ _ Hf)) as (c & t' & -> & Hc).
    exists c, t'. split; [reflexivity|]. clear -Hc. codes.
  - injection He as <-. now eexists _, _.
  - destruct (sequence _) as [ts|e]; [|discriminate]. injection He as <-. now eexists _, _.
  - destruct (sequence _) as [ts|e]; [|discriminate]. injection He as <-. now eexists _, _.
Qed.

Lemma stop_comma r : stop (byte 44 :: r).
Proof. repeat split. Qed.

Lemma stop_bracket r : stop (byte 93 :: r).
Proof. repeat split. Qed.

Lemma stop_brace r : stop (byte 125 :: r).
Proof. repeat split. Qed.

(** ** Arrays *)

Lemma decode_array_elements (l : list value) :
  Forall reads_back l -> forallb generic l = true -> l <> [] ->
  forall ts, sequence (map encode l) = inl ts ->
  forall fuel depth acc r,
    length (join ts) < fuel ->
    (depth + max_list (map nesting l) <= maxNestingDepth)%N ->
    decode_array fuel depth (join ts ++ byte 93 :: r) acc = Some (VSlice (acc ++ l), r).
Proof.
  induction 1 as [|v l Hv Hl IH]; [congruence|].
  intros Hg _ ts Hts fuel depth acc r Hfuel Hdepth.
  cbn [forallb] in Hg. apply andb_true_iff in Hg. destruct Hg as [Hgv Hgl].
  cbn [map] in Hts, Hdepth. apply sequence_cons in Hts.
  destruct Hts as (t1 & ts' & Ht1 & Hts' & ->).
  assert (Hd : (depth + nesting v <= maxNestingDepth)%N /\
               (depth + max_list (map nesting l) <= maxNestingDepth)%N).
  { unfold max_list in *. cbn [fold_right] in Hdepth. lia. }
  destruct Hd as [Hdv Hdl].
  destruct fuel as [|fuel]; [lia|]. rewrite decode_array_step.
  destruct l as [|v2 l].
  - cbn [map sequence] in Hts'. injection Hts' as <-. cbn [join] in *.
    rewrite (Hv Hgv t1 Ht1 fuel depth (byte 93 :: r)); [|lia|exact Hdv|apply stop_bracket].
    reflexivity.
  - assert (Hne : ts' <> []).
    { cbn [map] in Hts'. apply sequence_cons in Hts'.
      destruct Hts' as (? & ? & _ & _ & ->). discriminate. }
    rewrite (join_cons _ _ Hne) in *. rewrite length_app in Hfuel. cbn [length] in Hfuel.
    rewrite <- app_assoc. cbn [app].
    rewrite (Hv Hgv t1 Ht1 fuel depth (byte 44 :: join ts' ++ byte 93 :: r));
      [|lia|exact Hdv|apply stop_comma].
    change (skip_space (byte 44 :: ?x)) with (byte 44 :: x).
    change (is_char 44 (byte 44)) with true. cbv iota.
    rewrite (IH Hgl ltac:(discriminate) ts' Hts' fuel depth (acc ++ [v]) r ltac:(lia) Hdl).
    now rewrite <- app_assoc.
Qed.

(** ** Objects *)

Lemma member_app (k : string) t r :
  (json_string k ++ byte 58 :: t) ++ r
  = byte 34 :: (json_string_body (text k) ++ byte 34 :: byte 58 :: (t ++ r)).
Proof.
  unfold json_string. cbn [app]. rewrite <- !app_assoc. reflexivity.
Qed.

Lemma decode_object_members (m : list (string * value)) :
  Forall (fun kv => reads_back (snd kv)) m ->
  forallb (fun kv => utf8_valid (text (fst kv)) && generic (snd kv)) m = true ->
  m <> [] ->
  forall ts,
    sequence (map (fun kt : string * (list ascii + error) =>
                     match snd kt with
                     | inl t => inl (json_string (fst kt) ++ byte 58 :: t)
                     | inr e => inr e
                     end)
                  (map (fun kv => (fst kv, encode (snd kv))) m)) = inl ts ->
  forall fuel depth acc r,
    length (join ts) < fuel ->
    (depth + max_list (map (fun kv => nesting (snd kv)) m) <= maxNestingDepth)%N ->
    decode_object fuel depth (join ts ++ byte 125 :: r) acc
    = Some (VMap (fold_left (fun a kv => map_set (fst kv) (snd kv) a) m acc), r).
Proof.
  induction 1 as [|[k v] m Hv Hm IH]; [congruence|].
  intros Hg _ ts Hts fuel depth acc r Hfuel Hdepth.
  cbn [forallb fst snd] in Hg. apply andb_true_iff in Hg. destruct Hg as [Hgv Hgm].
  apply andb_true_iff in Hgv. destruct Hgv as [Hk Hgv].
  cbn [map fst snd] in Hts, Hdepth. apply sequence_cons in Hts.
  destruct Hts as (t1 & ts' & Ht1 & Hts' & ->).
  destruct (encode v) as [tv|e] eqn:Hev; [|discriminate].
  assert (Et : t1 = json_string k ++ byte 58 :: tv) by congruence. subst t1. clear Ht1.
  assert (Hd : (depth + nesting v <= maxNestingDepth)%N /\
               (depth + max_list (map (fun kv => nesting (snd kv)) m) <= maxNestingDepth)%N).
  { unfold max_list in *. cbn [fold_right] in Hdepth. lia. }
  destruct Hd as [Hdv Hdm].
  cbn [snd] in Hv. cbn [fold_left fst snd].
  destruct fuel as [|fuel]; [lia|].
  assert (Hlen : length tv <= length (json_string k ++ byte 58 :: tv)).
  { rewrite length_app. cbn [length]. lia. }
  destruct m as [|kv2 m].
  - cbn [map sequence] in Hts'. injection Hts' as <-.
    change (join [?x]) with x in *. change (fold_left _ [] ?x) with x.
    rewrite member_app, decode_object_step, (unquote_body _ Hk).
    change (skip_space (byte 58 :: ?x)) with (byte 58 :: x).
    change (is_char 58 (byte 58)) with true. cbv iota.
    rewrite (Hv Hgv tv Hev fuel depth (byte 125 :: r)); [|lia|exact Hdv|apply stop_brace].
    now rewrite text_string_of_list_ascii.
  - assert (Hne : ts' <> []).
    { cbn [map] in Hts'. apply sequence_cons in Hts'.
      destruct Hts' as (? & ? & _ & _ & ->). discriminate. }
    rewrite (join_cons _ _ Hne) in *. rewrite length_app in Hfuel. cbn [length] in Hfuel.
    rewrite <- app_assoc. cbn [app].
    rewrite member_app, decode_object_step, (unquote_body _ Hk).
    change (skip_space (byte 58 :: ?x)) with (byte 58 :: x).
    change (is_char 58 (byte 58)) with true. cbv iota.
    rewrite (Hv Hgv tv Hev fuel depth (byte 44 :: join ts' ++ byte 125 :: r));
      [|lia|exact Hdv|apply stop_comma].
    cbv zeta.
    change (skip_space (byte 44 :: ?x)) with (byte 44 :: x).
    change (is_char 44 (byte 44)) with true. cbv iota.
    rewrite text_string_of_list_ascii.
    exact (IH Hgm ltac:(discriminate) ts' Hts' fuel depth _ r ltac:(lia) Hdm).
Qed.

(** ** Values *)

Lemma reads_back_all (v : value) : reads_back v.
Proof.
  induction v as [ |b|n|f|s|l IH|m IH| | | ] using value_ind';
    intros Hg t He fuel depth r Hfuel Hdepth Hr; cbn [generic encode] in *;
    try discriminate.
  - injection He as <-. destruct fuel as [|fuel]; [cbn in Hfuel; lia|]. reflexivity.
  - injection He as <-.
    destruct fuel as [|fuel]; [destruct b; cbn in Hfuel; lia|]. now destruct b.
  - destruct (FormatFloat64 f) as [t0|] eqn:Hf; [|discriminate]. injection He as <-.
    pose proof (FormatFloat64_number _ _ Hf) as Hnum.
    destruct (number_head _ Hnum) as (c & t' & -> & Hc).
    destruct fuel as [|fuel]; [cbn in Hfuel; lia|].
    cbn [app]. rewrite (decode_value_number _ _ _ _ Hc).
    change (c :: t' ++ r) with ((c :: t') ++ r).
    rewrite (scan_number_app _ _ Hr Hnum).
    unfold token. rewrite length_app, Nat.add_sub, firstn_app, Nat.sub_diag, firstn_all.
    cbn [firstn]. rewrite app_nil_r.
    now rewrite (FormatFloat64_parse _ _ Hf).
  - injection He as <-. destruct fuel as [|fuel]; [cbn in Hfuel; lia|].
    unfold json_string. cbn [app]. rewrite decode_value_string, <- app_assoc. cbn [app].
    rewrite (unquote_body _ Hg). now rewrite text_string_of_list_ascii.
  - destruct (sequence (map encode l)) as [ts|e] eqn:Hts; [|discriminate].
    injection He as <-. destruct fuel as [|fuel]; [cbn in Hfuel; lia|].
    cbn [nesting] in Hdepth.
    assert (Hlt : (depth <? maxNestingDepth)%N = true) by (apply N.ltb_lt; lia).
    cbn [app]. rewrite (decode_value_array _ _ _ Hlt), <- app_assoc. cbn [app].
    destruct l as [|v l]; [cbn in Hts; injection Hts as <-; reflexivity|].
    assert (Hhead : exists c t', join ts = c :: t' /\ is_space c = false /\ is_char 93 c = false).
    { cbn [forallb] in Hg. apply andb_true_iff in Hg. destruct Hg as [Hgv _].
      cbn [map] in Hts. apply sequence_cons in Hts.
      destruct Hts as (t1 & ts' & Ht1 & _ & ->).
      destruct (encode_head _ _ Hgv Ht1) as (c & t' & -> & Hc).
      destruct ts' as [|t2 ts']; cbn [join app]; eauto. }
    destruct Hhead as (c & t' & Hj & Hsp & Hbr).
    pose proof (decode_array_elements _ IH Hg ltac:(discriminate) ts Hts
                  fuel (depth + 1)%N [] r) as Hdec.
    cbn [length] in Hfuel. rewrite length_app in Hfuel. cbn [length] in Hfuel.
    rewrite Hj in *. cbn [app] in *.
    rewrite (skip_space_head _ _ Hsp), Hbr. apply Hdec; lia.
  - apply andb_true_iff in Hg. destruct Hg as [Hsorted Hg].
    rewrite sort_keys_sorted in He
      by (rewrite map_map; cbn [fst]; exact Hsorted).
    match type of He with
    | match sequence ?x with _ => _ end = _ =>
        destruct (sequence x) as [ts|e] eqn:Hts; [|discriminate]
    end.
    injection He as <-. destruct fuel as [|fuel]; [cbn in Hfuel; lia|].
    cbn [nesting] in Hdepth.
    assert (Hlt : (depth <? maxNestingDepth)%N = true) by (apply N.ltb_lt; lia).
    cbn [app]. rewrite (decode_value_object _ _ _ Hlt), <- app_assoc. cbn [app].
    destruct m as [|[k v] m]; [cbn in Hts; injection Hts as <-; reflexivity|].
    pose proof (decode_object_members _ IH Hg ltac:(discriminate) ts Hts
                  fuel (depth + 1)%N [] r) as Hdec.
    rewrite fold_map_set_sorted in Hdec by (exact Hsorted || reflexivity).
    cbn [length] in Hfuel. rewrite length_app in Hfuel. cbn [length] in Hfuel.
    assert (Hhead : exists t', join ts = byte 34 :: t').
    { cbn [map fst snd] in Hts. apply sequence_cons in Hts.
      destruct Hts as (t1 & ts' & Ht1 & _ & ->).
      destruct (encode v) as [tv|e]; [|discriminate]. injection Ht1 as <-.
      destruct ts' as [|t2 ts']; cbn [join app json_string]; eauto. }
    destruct Hhead as (t' & Hj). rewrite Hj in *. cbn [app] in *.
    change (skip_space (byte 34 :: ?x)) with (byte 34 :: x).
    change (is_char 125 (byte 34)) with false. cbv iota.
    apply Hdec; lia.
Qed.

(** ** The round trip *)


End JsonProps.

(** * Further properties of the JSON codec and of the generic path *)

Section JsonMore.
Context {SC : Strconv}.

Implicit Types (v : value) (t r : list ascii).

(** The round trip at the level of bytes. *)
Lemma json_round_trip v t :
  generic v = true -> (nesting v <= maxNestingDepth)%N ->
  json_Marshal v = inl t -> json_Unmarshal t = inl v.
Proof.
  intros Hg Hn He. unfold json_Marshal, json_Unmarshal in *.
  pose proof (reads_back_all v Hg t He (S (length t)) 0%N [] ltac:(lia) Hn I) as Hd.
  rewrite app_nil_r in Hd. now rewrite Hd.
Qed.

Lemma FormatInt_not_nil (n : Z) : FormatInt n <> [].
Proof.
  unfold FormatInt. destruct n as [|p|p]; simpl; try discriminate.
  destruct (Pos.to_uint p); discriminate.
Qed.

Lemma encode_not_nil v t : encode v = inl t -> t <> [].
Proof.
  destruct v as [ |b|n|f|s|l|m| | | ]; cbn [encode]; intros He; try discriminate.
  - injection He as <-. discriminate.
  - injection He as <-. destruct b; discriminate.
  - injection He as <-. apply FormatInt_not_nil.
  - destruct (FormatFloat64 f) as [t0|] eqn:Hf; [|discriminate]. injection He as <-.
    destruct (number_head _ (FormatFloat64_number _ _ Hf)) as (c & t' & -> & _).
    discriminate.
  - injection He as <-. discriminate.
  - destruct (sequence _); [|discriminate]. injection He as <-. discriminate.
  - destruct (sequence _); [|discriminate]. injection He as <-. discriminate.
  - injection He as <-. discriminate.
  - injection He as <-. discriminate.
Qed.

(** X9: [Marshal] returns the empty string exactly when it returns an
    error: a text that comes without error is never empty, and the text
    that comes with an error is always empty. *)
Theorem Marshal_empty_iff_error (v : value) :
  match Marshal v with
  | (s, Some _) => s = EmptyString
  | (s, None) => s <> EmptyString
  end.
Proof.
  unfold Marshal, json_Marshal. destruct (encode v) as [t|e] eqn:He; [|reflexivity].
  pose proof (encode_not_nil _ _ He) as Hne. destruct t; [congruence|discriminate].
Qed.

Lemma json_string_body_length (s : list ascii) :
  length s <= length (json_string_body s).
Proof.
  remember (length s) as n eqn:Hn. revert s Hn.
  induction n as [n IH] using lt_wf_ind. intros s Hn.
  destruct s as [|b0 s1]; [simpl in *; lia|]. cbn [json_string_body].
  destruct (code b0 <? 128)%N.
  - rewrite length_app.
    assert (1 <= length (json_escape b0)).
    { unfold json_escape. repeat (destruct (_ || _) || destruct (_ =? _)%N); simpl; lia. }
    specialize (IH (length s1) ltac:(simpl in Hn; lia) s1 eq_refl). simpl in *. lia.
  - destruct (utf8_width b0 s1) as [|[|[|[|[|w]]]]];
      try (rewrite length_app;
           specialize (IH (length s1) ltac:(simpl in Hn; lia) s1 eq_refl);
           simpl in *; lia).
    + destruct s1 as [|b1 s2].
      * rewrite length_app. simpl in *. lia.
      * specialize (IH (length s2) ltac:(simpl in Hn; lia) s2 eq_refl). simpl in *. lia.
    + destruct s1 as [|b1 [|b2 s3]].
      * rewrite length_app. simpl in *. lia.
      * rewrite length_app.
        specialize (IH 1 ltac:(simpl in Hn; lia) [b1] eq_refl). simpl in *. lia.
      * specialize (IH (length s3) ltac:(simpl in Hn; lia) s3 eq_refl).
        destruct (is_line_sep b0 b1 b2); [rewrite length_app|]; simpl in *; lia.
    + destruct s1 as [|b1 s2]; [rewrite length_app; simpl in *; lia|].
      destruct s2 as [|b2 s3];
        [rewrite length_app;
         specialize (IH 1 ltac:(simpl in Hn; lia) [b1] eq_refl); simpl in *; lia|].
      destruct s3 as [|b3 s4];
        [rewrite length_app;
         specialize (IH 2 ltac:(simpl in Hn; lia) [b1; b2] eq_refl); simpl in *; lia|].
      specialize (IH (length s4) ltac:(simpl in Hn; lia) s4 eq_refl). simpl in *. lia.
Qed.

End JsonMore.

Section CacheJson.
Context {SC : Strconv} {RD : Redis}.

Implicit Types (s : State) (key : string).

Lemma then_Get_reply {A : Type} (set : M A) key s (a : A) s1 cl :
  set s = Returns a s1 -> rad s1 = rad s -> Db (rad s) = Some cl ->
  forall {B : Type} (f : StringCmd -> M B),
    (set;; r ← self; cmd ← Db_Get (Prefix (Options_ r) +:+ key); f cmd) s
    = f (StringCmd_of (fst (redis_GET (physical (rad s) key) (srv s1))))
        (sent (GET (physical (rad s) key))
              (snd (redis_GET (physical (rad s) key) (srv s1))) s1).
Proof.
  intros Hset Hrad Hdb B f.
  rewrite (bind_Returns _ _ _ _ _ Hset), self_bind.
  erewrite bind_Returns by (eapply Db_Get_attached; rewrite Hrad; exact Hdb).
  unfold physical. now rewrite Hrad.
Qed.

Lemma Set_sends key v exp s cl val :
  Db (rad s) = Some cl -> Marshal v = (val, None) ->
  Set_ key v exp s
  = Returns (StatusCmd_of (fst (redis_SET (physical (rad s) key) (ArgString val) exp (srv s))))
      (sent (SET (physical (rad s) key) (ArgString val) exp)
            (snd (redis_SET (physical (rad s) key) (ArgString val) exp (srv s))) s).
Proof.
  intros Hdb Hm. unfold Set_. rewrite Hm, self_bind.
  now erewrite Db_Set_attached by exact Hdb.
Qed.

Lemma SetString_sends key str exp s cl :
  Db (rad s) = Some cl ->
  SetString key str exp s
  = Returns (StatusCmd_of (fst (redis_SET (physical (rad s) key) (ArgString str) exp (srv s))))
      (sent (SET (physical (rad s) key) (ArgString str) exp)
            (snd (redis_SET (physical (rad s) key) (ArgString str) exp (srv s))) s).
Proof.
  intros Hdb. unfold SetString. rewrite self_bind.
  now erewrite Db_Set_attached by exact Hdb.
Qed.

(** X10: on a handle with a client, [Set_] followed by [Get] on the same
    key gives back the value that was written, with a nil error, for every
    value of the decoder's shape (so no int, no nil slice and no nil map in
    it) that serializes, provided the store then answers the GET with the
    text it was given.  Two commands are sent, a SET and a GET, and nothing
    is logged. *)
Theorem Set_then_Get_returns_the_value (key : string) (v : value) (exp : Duration)
    (s : State) (c : Client) (val : string) :
  Db (rad s) = Some c ->
  generic v = true ->
  (nesting v <= maxNestingDepth)%N ->
  Marshal v = (val, None) ->
  let pk := physical (rad s) key in
  let d1 := snd (redis_SET pk (ArgString val) exp (srv s)) in
  fst (redis_GET pk d1) = inl val ->
  exists s2,
    (Set_ key v exp;; Get key) s = Returns (v, None) s2 /\
    srv s2 = snd (redis_GET pk d1) /\
    trace s2 = trace s ++ [StoreCall (SET pk (ArgString val) exp); StoreCall (GET pk)].
Proof.
  intros Hdb Hg Hn Hm pk d1 Hget.
  assert (Hu : UnMarshal val = (v, None)).
  { unfold Marshal in Hm. destruct (json_Marshal v) as [t|e] eqn:He; [|discriminate].
    injection Hm as <-. unfold UnMarshal.
    now rewrite list_ascii_of_string_of_list_ascii, (json_round_trip v t Hg Hn He). }
  exists (sent (GET pk) (snd (redis_GET pk d1)) (sent (SET pk (ArgString val) exp) d1 s)).
  split; [|split].
  - unfold Get.
    rewrite (then_Get_reply _ key s _ _ c (Set_sends key v exp s c val Hdb Hm) eq_refl Hdb).
    change (srv (sent _ ?d _)) with d. fold pk d1. rewrite Hget. simpl.
    now rewrite Hu.
  - reflexivity.
  - simpl. now rewrite <- app_assoc.
Qed.

(** X11: the generic and the typed paths do not meet.  With a store that
    answers a GET with the text it was given: [GetString] after [Set_]
    returns the JSON text of the value, which for a string value is never
    the string itself; and [Get] after [SetString] returns what [UnMarshal]
    makes of the raw string. *)
Theorem generic_and_typed_paths_differ (key : string) (exp : Duration)
    (s : State) (c : Client) :
  Db (rad s) = Some c ->
  let pk := physical (rad s) key in
  (forall v val,
     Marshal v = (val, None) ->
     fst (redis_GET pk (snd (redis_SET pk (ArgString val) exp (srv s)))) = inl val ->
     exists s2, (Set_ key v exp;; GetString key) s = Returns (val, None) s2) /\
  (forall str, fst (Marshal (VString str)) <> str) /\
  (forall str,
     fst (redis_GET pk (snd (redis_SET pk (ArgString str) exp (srv s)))) = inl str ->
     exists s2, (SetString key str exp;; Get key) s = Returns (UnMarshal str) s2).
Proof.
  intros Hdb pk. split; [|split].
  - intros v val Hm Hget. eexists. unfold GetString.
    rewrite (then_Get_reply _ key s _ _ c (Set_sends key v exp s c val Hdb Hm) eq_refl Hdb).
    change (srv (sent _ ?d _)) with d. fold pk. rewrite Hget. reflexivity.
  - intros str H. apply (f_equal String.length) in H. revert H.
    unfold Marshal, json_Marshal. cbn [encode fst].
    pose proof (json_string_body_length (text str)) as Hlen.
    assert (Hl : forall l, String.length (string_of_list_ascii l) = length l).
    { induction l; simpl; congruence. }
    assert (Ht : length (text str) = String.length str).
    { unfold text. clear. induction str; simpl; congruence. }
    rewrite Hl. unfold json_string. cbn [length]. rewrite length_app. cbn [length]. lia.
  - intros str Hget. eexists. unfold Get.
    rewrite (then_Get_reply _ key s _ _ c (SetString_sends key str exp s c Hdb) eq_refl Hdb).
    change (srv (sent _ ?d _)) with d. fold pk. rewrite Hget. reflexivity.
Qed.

End CacheJson.

(** * What the decoder produces *)

Section Utf8Props.

Implicit Types (c b : ascii) (s t r : list ascii).

Lemma all_below_spec (n : nat) (P : N -> bool) :
  all_below n P = true -> forall x, (x < N.of_nat n)%N -> P x = true.
Proof.
  induction n as [|n IH]; intros H x Hx; [lia|].
  cbn [all_below] in H. apply andb_true_iff in H. destruct H as [Hn H].
  destruct (N.eq_dec x (N.of_nat n)) as [->|Hne]; [exact Hn|].
  apply IH; [exact H|lia].
Qed.

(** ** Well-formed sequences in front of a text *)

Lemma valid_1 c t : (code c <? 128)%N = true -> utf8_valid (c :: t) = utf8_valid t.
Proof. intros H. cbn [utf8_valid]. now rewrite H. Qed.

Lemma valid_2 b0 b1 x t :
  (code b0 <? 128)%N = false -> utf8_width b0 (b1 :: x) = 2 ->
  utf8_valid (b0 :: b1 :: t) = utf8_valid t.
Proof.
  intros H Hw. cbn [utf8_valid]. now rewrite H, (utf8_width_2 _ _ _ t Hw).
Qed.

Lemma valid_3 b0 b1 b2 x t :
  (code b0 <? 128)%N = false -> utf8_width b0 (b1 :: b2 :: x) = 3 ->
  utf8_valid (b0 :: b1 :: b2 :: t) = utf8_valid t.
Proof.
  intros H Hw. cbn [utf8_valid]. now rewrite H, (utf8_width_3 _ _ _ _ t Hw).
Qed.

Lemma valid_4 b0 b1 b2 b3 x t :
  (code b0 <? 128)%N = false -> utf8_width b0 (b1 :: b2 :: b3 :: x) = 4 ->
  utf8_valid (b0 :: b1 :: b2 :: b3 :: t) = utf8_valid t.
Proof.
  intros H Hw. cbn [utf8_valid]. now rewrite H, (utf8_width_4 _ _ _ _ _ t Hw).
Qed.

Lemma valid_RuneError t : utf8_valid (utf8_RuneError ++ t) = utf8_valid t.
Proof. reflexivity. Qed.

Lemma width_3_cont b0 b1 b2 t :
  utf8_width b0 [b1; byte 128] = 3 -> is_cont b2 = true ->
  utf8_width b0 (b1 :: b2 :: t) = 3.
Proof.
  unfold utf8_width.
  destruct (in_range 194 223 b0); [destruct (is_cont b1); discriminate|].
  destruct (in_range 224 239 b0).
  - intros H ->. change (is_cont (byte 128)) with true in H.
    rewrite andb_true_r in H. rewrite andb_true_r. exact H.
  - destruct (in_range 240 244 b0); discriminate.
Qed.

Lemma width_4_cont b0 b1 b2 b3 t :
  utf8_width b0 [b1; byte 128; byte 128] = 4 -> is_cont b2 = true -> is_cont b3 = true ->
  utf8_width b0 (b1 :: b2 :: b3 :: t) = 4.
Proof.
  unfold utf8_width.
  destruct (in_range 194 223 b0); [destruct (is_cont b1); discriminate|].
  destruct (in_range 224 239 b0).
  { match goal with |- (if ?x then _ else _) = _ -> _ => destruct x; discriminate end. }
  destruct (in_range 240 244 b0); [|discriminate].
  intros H -> ->. change (is_cont (byte 128)) with true in H.
  rewrite !andb_true_r in H. rewrite !andb_true_r. exact H.
Qed.

(** ** [utf8.EncodeRune] writes well-formed UTF-8 *)

Lemma cont_grid (z : N) : (z < 64)%N -> is_cont (byte (N.lor 128 z)) = true.
Proof.
  apply (all_below_spec 64 (fun z => is_cont (byte (N.lor 128 z)))). vm_compute. reflexivity.
Qed.

Lemma lead_2_grid (x y : N) :
  (2 <= x < 32)%N -> (y < 64)%N ->
  (code (byte (N.lor 192 x)) <? 128)%N = false /\
  utf8_width (byte (N.lor 192 x)) [byte (N.lor 128 y)] = 2.
Proof.
  intros [Hx1 Hx2] Hy.
  pose proof (all_below_spec 32
    (fun x => (x <? 2)%N ||
       all_below 64 (fun y =>
         negb (code (byte (N.lor 192 x)) <? 128)%N &&
         Nat.eqb (utf8_width (byte (N.lor 192 x)) [byte (N.lor 128 y)]) 2))
    ltac:(vm_compute; reflexivity) x Hx2) as H.
  cbv beta in H. apply orb_true_iff in H. destruct H as [H|H]; [apply N.ltb_lt in H; lia|].
  pose proof (all_below_spec 64 _ H y Hy) as H'. cbv beta in H'.
  apply andb_true_iff in H'. destruct H' as [H1 H2].
  split; [now apply negb_true_iff|now apply Nat.eqb_eq].
Qed.

Lemma lead_3_grid (x y : N) :
  (x < 16)%N -> (y < 64)%N -> (1 <= x \/ 32 <= y)%N -> ~ (x = 13 /\ 32 <= y)%N ->
  (code (byte (N.lor 224 x)) <? 128)%N = false /\
  utf8_width (byte (N.lor 224 x)) [byte (N.lor 128 y); byte 128] = 3.
Proof.
  intros Hx Hy Hlo Hsur.
  pose proof (all_below_spec 16
    (fun x => all_below 64 (fun y =>
       negb ((1 <=? x)%N || (32 <=? y)%N) || ((x =? 13)%N && (32 <=? y)%N) ||
       (negb (code (byte (N.lor 224 x)) <? 128)%N &&
        Nat.eqb (utf8_width (byte (N.lor 224 x)) [byte (N.lor 128 y); byte 128]) 3)))
    ltac:(vm_compute; reflexivity) x Hx) as H.
  pose proof (all_below_spec 64 _ H y Hy) as H'. cbv beta in H'.
  apply orb_true_iff in H'. destruct H' as [H'|H'].
  - apply orb_true_iff in H'. destruct H' as [H'|H'].
    + apply negb_true_iff, orb_false_iff in H'. destruct H' as [H1 H2].
      apply N.leb_gt in H1, H2. lia.
    + apply andb_true_iff in H'. destruct H' as [H1 H2].
      apply N.eqb_eq in H1. apply N.leb_le in H2. tauto.
  - apply andb_true_iff in H'. destruct H' as [H1 H2].
    split; [now apply negb_true_iff|now apply Nat.eqb_eq].
Qed.

Lemma lead_4_grid (x y : N) :
  (x < 8)%N -> (y < 64)%N -> (1 <= x \/ 16 <= y)%N -> (x < 4 \/ (x = 4 /\ y < 16))%N ->
  (code (byte (N.lor 240 x)) <? 128)%N = false /\
  utf8_width (byte (N.lor 240 x)) [byte (N.lor 128 y); byte 128; byte 128] = 4.
Proof.
  intros Hx Hy Hlo Hhi.
  pose proof (all_below_spec 8
    (fun x => all_below 64 (fun y =>
       negb ((1 <=? x)%N || (16 <=? y)%N) ||
       negb ((x <? 4)%N || ((x =? 4)%N && (y <? 16)%N)) ||
       (negb (code (byte (N.lor 240 x)) <? 128)%N &&
        Nat.eqb (utf8_width (byte (N.lor 240 x)) [byte (N.lor 128 y); byte 128; byte 128]) 4)))
    ltac:(vm_compute; reflexivity) x Hx) as H.
  pose proof (all_below_spec 64 _ H y Hy) as H'. cbv beta in H'.
  apply orb_true_iff in H'. destruct H' as [H'|H'].
  - apply orb_true_iff in H'. destruct H' as [H'|H'].
    + apply negb_true_iff, orb_false_iff in H'. destruct H' as [H1 H2].
      apply N.leb_gt in H1, H2. lia.
    + apply negb_true_iff, orb_false_iff in H'. destruct H' as [H1 H2].
      apply N.ltb_ge in H1. apply andb_false_iff in H2.
      destruct H2 as [H2|H2]; [apply N.eqb_neq in H2|apply N.ltb_ge in H2]; lia.
  - apply andb_true_iff in H'. destruct H' as [H1 H2].
    split; [now apply negb_true_iff|now apply Nat.eqb_eq].
Qed.

Lemma shiftr_6 (r : N) : N.shiftr r 6 = (r / 64)%N.
Proof. now rewrite N.shiftr_div_pow2. Qed.

Lemma shiftr_12 (r : N) : N.shiftr r 12 = (r / 4096)%N.
Proof. now rewrite N.shiftr_div_pow2. Qed.

Lemma shiftr_18 (r : N) : N.shiftr r 18 = (r / 262144)%N.
Proof. now rewrite N.shiftr_div_pow2. Qed.

Lemma land_63 (r : N) : N.land r 63 = (r mod 64)%N.
Proof. change 63%N with (N.ones 6). now rewrite N.land_ones. Qed.

Ltac euclid := zify; Z.to_euclidean_division_equations; lia.

Lemma valid_EncodeRune (rn : N) t :
  utf8_valid (utf8_EncodeRune rn ++ t) = utf8_valid t.
Proof.
  unfold utf8_EncodeRune.
  destruct (rn <? 128)%N eqn:H1.
  { apply valid_1. apply N.ltb_lt in H1. rewrite code_byte by lia. now apply N.ltb_lt. }
  apply N.ltb_ge in H1.
  destruct (rn <? 2048)%N eqn:H2.
  { apply N.ltb_lt in H2. rewrite shiftr_6, land_63. cbn [app].
    destruct (lead_2_grid (rn / 64) (rn mod 64) ltac:(euclid) ltac:(euclid)) as [Hh Hw].
    exact (valid_2 _ _ _ _ Hh Hw). }
  apply N.ltb_ge in H2.
  destruct ((55296 <=? rn)%N && (rn <=? 57343)%N || (1114111 <? rn)%N) eqn:H3;
    [apply valid_RuneError|].
  apply orb_false_iff in H3. destruct H3 as [H3 H4]. apply N.ltb_ge in H4.
  assert (Hsur : ~ (55296 <= rn <= 57343)%N).
  { intros [Ha Hb]. apply N.leb_le in Ha, Hb. now rewrite Ha, Hb in H3. }
  destruct (rn <? 65536)%N eqn:H5.
  { apply N.ltb_lt in H5. rewrite shiftr_12, shiftr_6, !land_63. cbn [app].
    destruct (lead_3_grid (rn / 4096) ((rn / 64) mod 64)
                ltac:(euclid) ltac:(euclid) ltac:(euclid) ltac:(euclid)) as [Hh Hw].
    pose proof (cont_grid (rn mod 64) ltac:(euclid)) as Hc.
    exact (valid_3 _ _ _ [] _ Hh (width_3_cont _ _ _ _ Hw Hc)). }
  apply N.ltb_ge in H5.
  rewrite shiftr_18, shiftr_12, shiftr_6, !land_63. cbn [app].
  destruct (lead_4_grid (rn / 262144) ((rn / 4096) mod 64)
              ltac:(euclid) ltac:(euclid) ltac:(euclid) ltac:(euclid)) as [Hh Hw].
  pose proof (cont_grid ((rn / 64) mod 64) ltac:(euclid)) as Hc2.
  pose proof (cont_grid (rn mod 64) ltac:(euclid)) as Hc3.
  exact (valid_4 _ _ _ _ [] _ Hh (width_4_cont _ _ _ _ _ Hw Hc2 Hc3)).
Qed.

(** ** Every string the decoder reads is well-formed UTF-8 *)

Lemma prepend_inv (p : list ascii) (o : option (list ascii * list ascii)) t r :
  prepend p o = Some (t, r) -> exists t', o = Some (t', r) /\ t = p ++ t'.
Proof.
  destruct o as [[t' r']|]; simpl; [|discriminate]. intros [= <- <-]. now exists t'.
Qed.

Lemma simple_escape_ascii (e b : ascii) :
  simple_escape e = Some b -> (code b <? 128)%N = true.
Proof.
  unfold simple_escape.
  destruct (is_char 34 e || is_char 92 e || is_char 47 e) eqn:H1.
  { intros [= <-]. codes. }
  repeat (match goal with |- context [if ?x then _ else _] => destruct x end;
          [intros [= <-]; reflexivity|]).
  discriminate.
Qed.

Lemma unquote_valid s :
  forall t r, unquote s = Some (t, r) -> utf8_valid t = true.
Proof.
  remember (length s) as n eqn:Hn. revert s Hn.
  induction n as [n IH] using lt_wf_ind. intros s Hn t r.
  assert (Hleaf : forall p s' t0,
            length s' < n -> (forall x, utf8_valid (p ++ x) = utf8_valid x) ->
            prepend p (unquote s') = Some (t0, r) -> utf8_valid t0 = true).
  { intros p s' t0 Hlen Hp H. apply prepend_inv in H. destruct H as (t' & Hu & ->).
    rewrite Hp. exact (IH _ Hlen s' eq_refl _ _ Hu). }
  destruct s as [|c s1]; [discriminate|]. cbn [unquote]. cbn [length] in Hn.
  destruct (is_char 34 c); [intros [= <- _]; reflexivity|].
  destruct (is_char 92 c).
  - destruct s1 as [|e s2]; [discriminate|]. cbn [length] in Hn.
    destruct (is_char 117 e).
    + destruct s2 as [|h1 [|h2 [|h3 [|h4 s6]]]]; try discriminate. cbn [length] in Hn.
      destruct (getu4 h1 h2 h3 h4) as [rr|]; [|discriminate].
      destruct (utf16_IsSurrogate rr).
      * assert (Hfall : forall t0, prepend utf8_RuneError (unquote s6) = Some (t0, r) ->
                                   utf8_valid t0 = true).
        { intros t0. apply Hleaf; [lia|apply valid_RuneError]. }
        destruct s6 as [|b [|u [|g1 [|g2 [|g3 [|g4 s12]]]]]]; try apply Hfall.
        match goal with
        | |- match ?x with _ => _ end = _ -> _ => destruct x as [dec|]
        end; [|apply Hfall].
        apply Hleaf; [simpl in Hn; lia|apply valid_EncodeRune].
      * apply Hleaf; [lia|apply valid_EncodeRune].
    + destruct (simple_escape e) as [b|] eqn:He; [|discriminate].
      apply Hleaf; [lia|]. intros x. apply (valid_1 b x), (simple_escape_ascii _ _ He).
  - destruct (code c <? 32)%N; [discriminate|].
    destruct (code c <? 128)%N eqn:Hlow.
    + apply Hleaf; [lia|]. intros x. now apply (valid_1 c x).
    + destruct (utf8_width c s1) as [|[|[|[|[|w]]]]] eqn:Hw;
        try (apply Hleaf; [lia|apply valid_RuneError]).
      * destruct s1 as [|b1 s2]; [apply Hleaf; [lia|apply valid_RuneError]|].
        apply Hleaf; [simpl in Hn; lia|]. intros x. exact (valid_2 _ _ _ x Hlow Hw).
      * destruct s1 as [|b1 [|b2 s3]]; try (apply Hleaf; [simpl in *; lia|apply valid_RuneError]).
        apply Hleaf; [simpl in Hn; lia|]. intros x. exact (valid_3 _ _ _ _ x Hlow Hw).
      * destruct s1 as [|b1 [|b2 [|b3 s4]]];
          try (apply Hleaf; [simpl in *; lia|apply valid_RuneError]).
        apply Hleaf; [simpl in Hn; lia|]. intros x. exact (valid_4 _ _ _ _ _ x Hlow Hw).
Qed.

End Utf8Props.

Section DecoderProps.
Context {SC : Strconv}.

Implicit Types (v : value) (t r : list ascii).

(** ** Keys stay in order *)

Lemma ascii_compare_lt_trans (a b c : ascii) :
  Ascii.compare a b = Lt -> Ascii.compare b c = Lt -> Ascii.compare a c = Lt.
Proof.
  unfold Ascii.compare. rewrite !N.compare_lt_iff. lia.
Qed.

Lemma string_compare_lt_trans (a b c : string) :
  String.compare a b = Lt -> String.compare b c = Lt -> String.compare a c = Lt.
Proof.
  revert b c. induction a as [|x a IH]; intros [|y b] [|z c]; simpl; try easy.
  destruct (Ascii.compare x y) eqn:Hxy; try discriminate.
  - apply Ascii.compare_eq_iff in Hxy. subst y.
    destruct (Ascii.compare x z); try easy. apply IH.
  - intros _. destruct (Ascii.compare y z) eqn:Hyz; try discriminate.
    + apply Ascii.compare_eq_iff in Hyz. subst z. now rewrite Hxy.
    + now rewrite (ascii_compare_lt_trans _ _ _ Hxy Hyz).
Qed.

Lemma ltb_trans (a b c : string) :
  String.ltb a b = true -> String.ltb b c = true -> String.ltb a c = true.
Proof.
  unfold String.ltb. intros Hab Hbc.
  destruct (String.compare a b) eqn:H1; try discriminate.
  destruct (String.compare b c) eqn:H2; try discriminate.
  now rewrite (string_compare_lt_trans _ _ _ H1 H2).
Qed.

Lemma map_set_entries {A : Type} (Q : string * A -> bool) (k : string) (a : A)
    (m : list (string * A)) :
  Q (k, a) = true -> forallb Q m = true -> forallb Q (map_set k a m) = true.
Proof.
  intros Hk. induction m as [|[k' a'] m IH]; simpl; [now rewrite Hk|].
  intros H. apply andb_true_iff in H. destruct H as [H1 H2].
  destruct (String.compare k k'); simpl; rewrite ?Hk, ?H1, ?H2, ?IH; auto.
Qed.

Lemma map_set_keys {A : Type} (P : string -> bool) (k : string) (a : A)
    (m : list (string * A)) :
  P k = true -> forallb P (map fst m) = true ->
  forallb P (map fst (map_set k a m)) = true.
Proof.
  intros Hk. induction m as [|[k' a'] m IH]; simpl; [now rewrite Hk|].
  intros H. apply andb_true_iff in H. destruct H as [H1 H2].
  destruct (String.compare k k'); simpl; rewrite ?Hk, ?H1, ?H2, ?IH; auto.
Qed.

Lemma map_set_sorted {A : Type} (k : string) (a : A) (m : list (string * A)) :
  sorted_keys (map fst m) = true -> sorted_keys (map fst (map_set k a m)) = true.
Proof.
  induction m as [|[k' a'] m IH]; [reflexivity|].
  cbn [map fst sorted_keys map_set]. intros H.
  apply andb_true_iff in H. destruct H as [Hall Hs].
  destruct (String.compare k k') eqn:Hc; cbn [map fst sorted_keys].
  - apply String.compare_eq_iff in Hc. subst k'. now rewrite Hall, Hs.
  - assert (Hlt : String.ltb k k' = true) by (unfold String.ltb; now rewrite Hc).
    cbn [forallb]. rewrite Hlt, Hall, Hs. rewrite !andb_true_r. simpl.
    clear -Hall Hlt. induction (map fst m) as [|x l IHl]; [reflexivity|].
    simpl in *. apply andb_true_iff in Hall. destruct Hall as [H1 H2].
    now rewrite (ltb_trans _ _ _ Hlt H1), IHl.
  - rewrite IH by exact Hs. rewrite andb_true_r.
    assert (Hlt : String.ltb k' k = true).
    { unfold String.ltb. rewrite String.compare_antisym, Hc. reflexivity. }
    now apply map_set_keys.
Qed.

(** ** Nesting stays within the limit *)

Lemma max_list_bound {A : Type} (f : A -> N) (l : list A) (d : N) :
  (d <= maxNestingDepth)%N ->
  forallb (fun x => (d + f x <=? maxNestingDepth)%N) l = true ->
  (d + max_list (map f l) <= maxNestingDepth)%N.
Proof.
  intros Hd. induction l as [|x l IH]; simpl; [lia|].
  intros H. apply andb_true_iff in H. destruct H as [H1 H2].
  apply N.leb_le in H1. specialize (IH H2). unfold max_list in *. lia.
Qed.

(** ** The shape of what comes out *)

Lemma expect_value (name s : list ascii) v r (w : value) :
  match expect name s with Some r' => Some (w, r') | None => None end = Some (v, r) ->
  v = w.
Proof. destruct (expect name s); [now intros [= <- _]|discriminate]. Qed.

Lemma decode_good (fuel : nat) :
  (forall depth s v r,
     (depth <= maxNestingDepth)%N ->
     decode_value fuel depth s = Some (v, r) ->
     generic v = true /\ (depth + nesting v <= maxNestingDepth)%N) /\
  (forall depth s acc v r,
     (1 <= depth <= maxNestingDepth)%N ->
     forallb generic acc = true ->
     forallb (fun x => (depth + nesting x <=? maxNestingDepth)%N) acc = true ->
     decode_array fuel depth s acc = Some (v, r) ->
     generic v = true /\ (depth - 1 + nesting v <= maxNestingDepth)%N) /\
  (forall depth s acc v r,
     (1 <= depth <= maxNestingDepth)%N ->
     sorted_keys (map fst acc) = true ->
     forallb (fun kv => utf8_valid (text (fst kv)) && generic (snd kv)) acc = true ->
     forallb (fun kv => (depth + nesting (snd kv) <=? maxNestingDepth)%N) acc = true ->
     decode_object fuel depth s acc = Some (v, r) ->
     generic v = true /\ (depth - 1 + nesting v <= maxNestingDepth)%N).
Proof.
  induction fuel as [|fuel (IHv & IHa & IHo)]; [repeat split; discriminate|].
  split; [|split].
  - (* a value *)
    intros depth s v r Hd. cbn [decode_value].
    destruct (skip_space s) as [|c r0]; [discriminate|].
    destruct (is_char 34 c).
    { destruct (unquote r0) as [[t0 r']|] eqn:Hu; [|discriminate]. intros [= <- <-].
      cbn [generic nesting]. unfold text.
      rewrite list_ascii_of_string_of_list_ascii, (unquote_valid _ _ _ Hu). split; [reflexivity|lia]. }
    destruct (is_char 91 c).
    { destruct (depth <? maxNestingDepth)%N eqn:Hlt; [|discriminate]. apply N.ltb_lt in Hlt.
      destruct (skip_space r0) as [|c' r']; [discriminate|].
      destruct (is_char 93 c').
      - intros [= <- <-]. cbn. split; [reflexivity|lia].
      - intros H. apply IHa in H; [|lia|reflexivity|reflexivity].
        destruct H as [Hg Hn]. split; [exact Hg|lia]. }
    destruct (is_char 123 c).
    { destruct (depth <? maxNestingDepth)%N eqn:Hlt; [|discriminate]. apply N.ltb_lt in Hlt.
      destruct (skip_space r0) as [|c' r']; [discriminate|].
      destruct (is_char 125 c').
      - intros [= <- <-]. cbn. split; [reflexivity|lia].
      - intros H. apply IHo in H; [|lia|reflexivity|reflexivity|reflexivity].
        destruct H as [Hg Hn]. split; [exact Hg|lia]. }
    destruct (is_char 110 c).
    { intros H. apply expect_value in H. subst v. cbn. split; [reflexivity|lia]. }
    destruct (is_char 116 c).
    { intros H. apply expect_value in H. subst v. cbn. split; [reflexivity|lia]. }
    destruct (is_char 102 c).
    { intros H. apply expect_value in H. subst v. cbn. split; [reflexivity|lia]. }
    destruct (scan_number (c :: r0)) as [r'|]; [|discriminate].
    destruct (ParseFloat64 _) as [f|e]; [|discriminate].
    intros [= <- <-]. cbn. split; [reflexivity|lia].
  - (* the elements of an array *)
    intros depth s acc v r Hd Hg Hn. cbn [decode_array].
    destruct (decode_value fuel depth s) as [[v0 r0]|] eqn:Hv; [|discriminate].
    destruct (IHv depth _ _ _ (proj2 Hd) Hv) as [Hg0 Hn0].
    assert (Hg' : forallb generic (acc ++ [v0]) = true).
    { rewrite forallb_app, Hg. simpl. now rewrite Hg0. }
    assert (Hn' : forallb (fun x => (depth + nesting x <=? maxNestingDepth)%N)
                    (acc ++ [v0]) = true).
    { rewrite forallb_app, Hn. simpl. rewrite andb_true_r. now apply N.leb_le. }
    destruct (skip_space r0) as [|c r']; [discriminate|].
    destruct (is_char 44 c); [now apply IHa|].
    destruct (is_char 93 c); [|discriminate].
    intros [= <- <-]. cbn [generic nesting]. split; [exact Hg'|].
    pose proof (max_list_bound nesting (acc ++ [v0]) depth ltac:(lia) Hn'). lia.
  - (* the members of an object *)
    intros depth s acc v r Hd Hs Hg Hn. cbn [decode_object].
    destruct (skip_space s) as [|q r0]; [discriminate|].
    destruct (is_char 34 q); [|discriminate].
    destruct (unquote r0) as [[k r1]|] eqn:Hu; [|discriminate].
    destruct (skip_space r1) as [|c r2]; [discriminate|].
    destruct (is_char 58 c); [|discriminate].
    destruct (decode_value fuel depth r2) as [[v0 r3]|] eqn:Hv; [|discriminate].
    destruct (IHv depth _ _ _ (proj2 Hd) Hv) as [Hg0 Hn0]. cbv zeta.
    set (acc' := map_set (string_of_list_ascii k) v0 acc).
    assert (Hs' : sorted_keys (map fst acc') = true) by now apply map_set_sorted.
    assert (Hg' : forallb (fun kv => utf8_valid (text (fst kv)) && generic (snd kv)) acc'
                  = true).
    { apply map_set_entries; [|exact Hg]. cbn [fst snd]. unfold text.
      now rewrite list_ascii_of_string_of_list_ascii, (unquote_valid _ _ _ Hu), Hg0. }
    assert (Hn' : forallb (fun kv => (depth + nesting (snd kv) <=? maxNestingDepth)%N) acc'
                  = true).
    { apply map_set_entries; [|exact Hn]. cbn [snd]. now apply N.leb_le. }
    destruct (skip_space r3) as [|d r4]; [discriminate|].
    destruct (is_char 44 d); [now apply IHo|].
    destruct (is_char 125 d); [|discriminate].
    intros [= <- <-]. cbn [generic nesting]. rewrite Hs', Hg'. split; [reflexivity|].
    pose proof (max_list_bound (fun kv => nesting (snd kv)) acc' depth ltac:(lia) Hn'). lia.
Qed.

Lemma json_Unmarshal_generic (data : list ascii) v :
  json_Unmarshal data = inl v ->
  generic v = true /\ (nesting v <= maxNestingDepth)%N.
Proof.
  unfold json_Unmarshal.
  destruct (decode_value (S (length data)) 0 data) as [[v0 r]|] eqn:Hd; [|discriminate].
  destruct (skip_space r); [|discriminate]. intros [= <-].
  destruct (proj1 (decode_good _) 0%N _ _ _ ltac:(unfold maxNestingDepth; lia) Hd)
    as [Hg Hn].
  split; [exact Hg|]. now rewrite N.add_0_l in Hn.
Qed.

(** X12: whatever text it is given, [UnMarshal] returns either an error
    beside nil, or a value of the generic shape with a nil error: built from
    nil, bool, float64, string, slice and map only (never an int), every
    string and key well-formed UTF-8, maps in key order, nested no deeper
    than the limit of the decoder. *)
Theorem UnMarshal_returns_generic_values (val : string) :
  match UnMarshal val with
  | (v, None) => generic v = true /\ (nesting v <= maxNestingDepth)%N
  | (v, Some _) => v = VNil
  end.
Proof.
  unfold UnMarshal. destruct (json_Unmarshal _) as [v|e] eqn:Hu; [|reflexivity].
  exact (json_Unmarshal_generic _ _ Hu).
Qed.

(** X13: a value that [UnMarshal] has read is in normal form: if [Marshal]
    accepts it, reading the text that [Marshal] writes gives the same value
    again.  (The text itself may differ from the first one, which can hold
    white space, other escapes or repeated keys.) *)
Theorem UnMarshal_result_survives_round_trip (val : string) (v : value) (val' : string) :
  UnMarshal val = (v, None) ->
  Marshal v = (val', None) ->
  UnMarshal val' = (v, None).
Proof.
  intros Hu Hm. unfold UnMarshal in Hu.
  destruct (json_Unmarshal (list_ascii_of_string val)) as [v0|e] eqn:Hj; [|discriminate].
  injection Hu as ->. destruct (json_Unmarshal_generic _ _ Hj) as [Hg Hn].
  unfold Marshal in Hm. destruct (json_Marshal v) as [t|e] eqn:He; [|discriminate].
  injection Hm as <-. unfold UnMarshal.
  now rewrite list_ascii_of_string_of_list_ascii, (json_round_trip v t Hg Hn He).
Qed.

End DecoderProps.

Section CacheDecoder.
Context {SC : Strconv} {RD : Redis}.

(** X14: in any state and for any key, a value that [Get] returns with a
    nil error has the generic shape: it holds no int, its strings and keys
    are well-formed UTF-8, its maps are in key order and it nests no deeper
    than the limit of the decoder. *)
Theorem Get_returns_generic_values (key : string) (s s' : State) (v : value) :
  Get key s = Returns (v, None) s' ->
  generic v = true /\ (nesting v <= maxNestingDepth)%N.
Proof.
  unfold Get. rewrite self_bind. unfold mbind at 1. unfold M_bind.
  destruct (Db_Get (Prefix (Options_ (rad s)) +:+ key) s) as [cmd s1|n s1|s1];
    [|discriminate|discriminate].
  destruct (Result cmd) as [result [err|]].
  - unfold mbind, M_bind. destruct (Error err s1); discriminate.
  - unfold mret, M_ret. intros [= Hu _]. unfold UnMarshal in Hu.
    destruct (json_Unmarshal _) as [v0|e] eqn:Hj; [|discriminate].
    injection Hu as <-. exact (json_Unmarshal_generic _ _ Hj).
Qed.

End CacheDecoder.

(** ** The properties at work on the in-memory environment *)

Section Examples.
Import Mem.
Local Open Scope Z_scope.

(** C3 at work: the default prefix, a client, no logger, the server down. *)
Lemma typed_getters_panic_witness :
  (Db (rad (start_down connected)) = Some client /\
   Logger (rad (start_down connected)) = None /\
   fst (redis_GET "rad_k" (srv (start_down connected))) = inr refused) /\
  GetInt "k" (start_down connected)
  = Panics {| rad := connected; srv := {| up := false; kv := ∅ |};
              trace := [StoreCall (GET "rad_k")] |} /\
  Get "k" (start_down connected)
  = Exits 1 {| rad := connected; srv := {| up := false; kv := ∅ |};
               trace := [StoreCall (GET "rad_k"); StdLog refused] |}.
Proof.
  split; [repeat split|].
  destruct (typed_getters_panic_without_sink "k" (start_down connected) client refused
              eq_refl eq_refl eq_refl) as ((HInt & _) & (HGet & _) & _).
  split; [exact HInt|exact HGet].
Defined.

(** C4 as the code has it, at work: a channel cannot be serialized; with
    a logger attached the error is logged and comes back in the command. *)
Lemma Set_serialization_failure_witness :
  snd (Marshal VChan) = Some (json_UnsupportedTypeError "chan int") /\
  exists cmd : StatusCmd,
    Set_ "k" VChan 0 (start logged)
    = Returns cmd
        {| rad := logged; srv := {| up := true; kv := ∅ |};
           trace := [ZapError sugar (json_UnsupportedTypeError "chan int")] |} /\
    StatusCmd_err cmd = Some (json_UnsupportedTypeError "chan int").
Proof.
  split; [reflexivity|].
  destruct (proj2 (proj2 (proj2
    (Set_serialization_failure "k" VChan 0 (start logged)
       (json_UnsupportedTypeError "chan int") eq_refl)))) as (cmd & Hcmd & Herr & _).
  exists cmd. split; [exact Hcmd|exact Herr].
Defined.

(** C4 as stated fails: on a handle with a client and no logger, [Set_] of
    a value that does not serialize returns nothing to its caller.  The
    error is printed on the standard logger, the process exits with status
    1, and the diagnostic sink has received nothing. *)
Lemma Set_unserializable_without_sink_exits :
  snd (Marshal VChan) = Some (json_UnsupportedTypeError "chan int") /\
  Logger (rad (start connected)) = None /\
  Set_ "k" VChan 0 (start connected)
  = Exits 1 {| rad := connected; srv := {| up := true; kv := ∅ |};
               trace := [StdLog (json_UnsupportedTypeError "chan int")] |} /\
  (forall cmd s', Set_ "k" VChan 0 (start connected) <> Returns cmd s') /\
  sink (trace (final (Set_ "k" VChan 0 (start connected)))) = [].
Proof.
  split; [reflexivity|]. split; [reflexivity|]. split; [reflexivity|].
  split; [discriminate|reflexivity].
Qed.

(** C6 as the code has it, at work: a stored text that is no integer, read
    with a fallback on a handle with client and logger. *)
Lemma OrDefault_returns_fallback_witness :
  let s := {| rad := logged;
              srv := {| up := true; kv := {[ "rad_n" := ("x", 0) ]} |};
              trace := [] |} in
  (Db (rad s) = Some client /\ Logger (rad s) = Some sugar) /\
  (exists e, snd (StringCmd_Int (StringCmd_of (fst (redis_GET "rad_n" (srv s))))) = Some e /\
     GetIntOrDefault "n" 7 s
     = Returns 7 {| rad := logged; srv := srv s;
                    trace := [StoreCall (GET "rad_n"); ZapError sugar e] |}) /\
  GetStringOrDefault "n" "none" s
  = Returns "x" {| rad := logged; srv := srv s; trace := [StoreCall (GET "rad_n")] |}.
Proof.
  intros s. split; [split; reflexivity|].
  destruct (OrDefault_returns_fallback_on_error "n" s client sugar eq_refl eq_refl)
    as (HS & HI & _).
  split.
  - eexists. split; [reflexivity|]. exact (HI 7).
  - exact (HS "none").
Defined.

(** C6 as stated fails: on a handle with a client and no logger, a failed
    read does not give the fallback.  [GetIntOrDefault] panics on the nil
    logger and [GetStringOrDefault] ends the process; neither returns. *)
Lemma OrDefault_fallback_lost_without_sink :
  Logger (rad (start_down connected)) = None /\
  fst (redis_GET "rad_k" (srv (start_down connected))) = inr refused /\
  GetIntOrDefault "k" 7 (start_down connected)
  = Panics {| rad := connected; srv := {| up := false; kv := ∅ |};
              trace := [StoreCall (GET "rad_k")] |} /\
  GetStringOrDefault "k" "none" (start_down connected)
  = Exits 1 {| rad := connected; srv := {| up := false; kv := ∅ |};
               trace := [StoreCall (GET "rad_k"); StdLog refused] |} /\
  (forall r s', GetIntOrDefault "k" 7 (start_down connected) <> Returns r s') /\
  (forall r s', GetStringOrDefault "k" "none" (start_down connected) <> Returns r s').
Proof.
  repeat split; discriminate.
Qed.

(** C7 as the code has it, at work: a key that is not in the store, read
    on a handle with client and logger. *)
Lemma getters_return_sentinel_witness :
  Db (rad (start logged)) = Some client /\
  GetString "missing" (start logged)
  = Returns (EmptyString, Some redis_Nil)
      {| rad := logged; srv := {| up := true; kv := ∅ |};
         trace := [StoreCall (GET "rad_missing"); ZapError sugar redis_Nil] |} /\
  GetInt "missing" (start logged)
  = Returns (-1, Some redis_Nil)
      {| rad := logged; srv := {| up := true; kv := ∅ |};
         trace := [StoreCall (GET "rad_missing"); ZapError sugar redis_Nil] |}.
Proof.
  split; [reflexivity|].
  destruct (getters_return_sentinel_on_failure "missing" (start logged) client eq_refl)
    as (HS & HI & _).
  split; [exact (HS redis_Nil eq_refl)|exact (HI redis_Nil eq_refl)].
Defined.

(** C7 as stated fails: on a handle with a client and no logger, a getter
    that fails returns neither a sentinel nor the error.  [GetString] ends
    the process and [GetInt] panics on the nil logger. *)
Lemma getters_do_not_return_without_sink :
  Logger (rad (start_down connected)) = None /\
  fst (redis_GET "rad_k" (srv (start_down connected))) = inr refused /\
  GetString "k" (start_down connected)
  = Exits 1 {| rad := connected; srv := {| up := false; kv := ∅ |};
               trace := [StoreCall (GET "rad_k"); StdLog refused] |} /\
  GetInt "k" (start_down connected)
  = Panics {| rad := connected; srv := {| up := false; kv := ∅ |};
              trace := [StoreCall (GET "rad_k")] |} /\
  (forall r s', GetString "k" (start_down connected) <> Returns r s') /\
  (forall r s', GetInt "k" (start_down connected) <> Returns r s').
Proof.
  repeat split; discriminate.
Qed.

(** C9 at work: one stored key, asked for through its logical name. *)
Lemma Exist_iff_count_one_witness :
  let s := {| rad := logged;
              srv := {| up := true; kv := {[ "rad_a" := ("x", 0) ]} |};
              trace := [] |} in
  Db (rad s) = Some client /\
  exists b : bool,
    Exist "a" s = Returns b {| rad := logged; srv := srv s;
                               trace := [StoreCall (EXISTS ["rad_a"])] |} /\
    (b = true <-> fst (redis_EXISTS ["rad_a"] (srv s)) = inl 1).
Proof.
  intros s. split; [reflexivity|].
  destruct (Exist_iff_count_one "a" s client eq_refl) as (b & Hb & Hiff & _).
  exists b. split; [exact Hb|exact Hiff].
Defined.

(** C10 as the code has it, at work: two keys, the server down, a logger
    attached. *)
Lemma DelAny_single_batched_delete_witness :
  Db (rad (start_down logged)) = Some client /\
  store_calls (trace (final (DelAny ["a"; "b"] (start_down logged))))
  = [DEL ["rad_a"; "rad_b"]] /\
  DelAny ["a"; "b"] (start_down logged)
  = Returns (Some refused)
      {| rad := logged; srv := {| up := false; kv := ∅ |};
         trace := [StoreCall (DEL ["rad_a"; "rad_b"]); ZapError sugar refused] |}.
Proof.
  split; [reflexivity|].
  exact (DelAny_single_batched_delete ["a"; "b"] (start_down logged) client eq_refl).
Defined.

(** C10 as stated fails: on a handle with a client and no logger, a failed
    batched delete is neither routed to the diagnostic sink nor returned.
    The one DEL is sent, the error is printed on the standard logger and
    the process exits with status 1. *)
Lemma DelAny_failure_without_sink_exits :
  Logger (rad (start_down connected)) = None /\
  fst (redis_DEL ["rad_a"; "rad_b"] (srv (start_down connected))) = inr refused /\
  DelAny ["a"; "b"] (start_down connected)
  = Exits 1 {| rad := connected; srv := {| up := false; kv := ∅ |};
               trace := [StoreCall (DEL ["rad_a"; "rad_b"]); StdLog refused] |} /\
  (forall err s', DelAny ["a"; "b"] (start_down connected) <> Returns err s') /\
  sink (trace (final (DelAny ["a"; "b"] (start_down connected)))) = [].
Proof.
  repeat split; discriminate.
Qed.

(** C1 as stated fails: with a client and a logger attached and the server
    down, [SetString] returns the error of the store in its command and the
    logger receives nothing. *)
Lemma SetString_failure_not_routed :
  exists (cmd : StatusCmd) (s' : State),
    SetString "k" "v" 0 (start_down logged) = Returns cmd s' /\
    StatusCmd_err cmd = Some refused /\
    Logger (rad s') = Some sugar /\
    trace s' = [StoreCall (SET "rad_k" (ArgString "v") 0)] /\
    sink (trace s') = [].
Proof.
  eexists _, _. split; [reflexivity|]. repeat split.
Qed.

(** A stored text that is not JSON: [Get] returns the error of the decoder
    and the logger receives nothing. *)
Example Get_undecodable_not_routed :
  exists e s',
    (SetString "a" "hello" 0;; Get "a") (start logged)
    = Returns (VNil, Some (json_UnmarshalError e)) s' /\
    sink (trace s') = [].
Proof. eexists _, _. split; reflexivity. Qed.

(** C1 as the code has it, at work: with the server down, a failed GET is
    logged and returned, a failed SET is returned only. *)
Lemma failures_returned_and_routed_witness :
  (Db (rad (start_down logged)) = Some client /\
   Logger (rad (start_down logged)) = Some sugar) /\
  GetString "k" (start_down logged)
  = Returns (EmptyString, Some refused)
      {| rad := logged; srv := {| up := false; kv := ∅ |};
         trace := [StoreCall (GET "rad_k"); ZapError sugar refused] |} /\
  SetArg "k" (ArgInt 7) 0 (start_down logged)
  = Returns (StatusCmd_SetErr NewStatusCmd refused)
      {| rad := logged; srv := {| up := false; kv := ∅ |};
         trace := [StoreCall (SET "rad_k" (ArgInt 7) 0)] |}.
Proof.
  split; [split; reflexivity|].
  destruct (failures_returned_and_routed "k" (start_down logged) client sugar
              eq_refl eq_refl) as (HGet & _ & _ & _ & HSet & _).
  split.
  - exact (proj1 (proj2 (proj1 (HGet refused eq_refl)))).
  - exact (proj1 (HSet (ArgInt 7) 0 refused eq_refl)).
Defined.


(** A nil slice and a nil map are encodable too, and do not come back
    either: both are written as [null], which is read as the nil
    interface, at the top and inside a slice. *)
Example nil_slice_comes_back_as_nil :
  Marshal VNilSlice = ("null", None) /\
  Marshal VNilMap = ("null", None) /\
  UnMarshal "null" = (VNil, None) /\
  VNil <> VNilSlice /\ VNil <> VNilMap /\
  Marshal (VSlice [VNilSlice; VSlice []]) = ("[null,[]]", None) /\
  UnMarshal "[null,[]]" = (VSlice [VNil; VSlice []], None).
Proof.
  repeat split; discriminate.
Qed.


(** The proviso on strings is needed as well: a byte that is not UTF-8 is
    written as the escape of U+FFFD and comes back as that character. *)
Lemma ill_formed_string_comes_back_replaced :
  let v := VString (String (byte 255) EmptyString) in
  generic v = false /\
  snd (Marshal v) = None /\
  UnMarshal (fst (Marshal v)) = (VString (string_of_list_ascii utf8_RuneError), None) /\
  VString (string_of_list_ascii utf8_RuneError) <> v.
Proof.
  intros v. split; [reflexivity|]. split; [reflexivity|]. split; [reflexivity|discriminate].
Qed.

(** A map with keys and strings that need escapes, through both directions. *)
Example map_round_trip :
  let v := VMap [("a<b", VSlice [VString "x&y"; VFloat64 3]); ("k", VMap [("n", VNil)])] in
  generic v = true /\ UnMarshal (fst (Marshal v)) = (v, None).
Proof. intros v. split; reflexivity. Qed.

(** ** Scenarios *)

(** A handle with the prefix [test_]: a string written and read back, under
    the physical key [test_a]. *)
Example scenario_string :
  exists s',
    (UseRedis client;; UseZapLogger sugar;;
     SetString "a" "hello" 3600000000000;; GetString "a")
      (start (New {| Prefix := "test_" |}))
    = Returns ("hello", None) s' /\
    store_calls (trace s')
    = [SET "test_a" (ArgString "hello") 3600000000000; GET "test_a"].
Proof. eexists. split; reflexivity. Qed.

(** An integer written and read with a fallback; a missing key gives the
    fallback. *)
Example scenario_int_or_default :
  exists s',
    (UseRedis client;; UseZapLogger sugar;;
     SetInt "n" 42 3600000000000;;
     present ← GetIntOrDefault "n" (-1);
     missing ← GetIntOrDefault "missing" (-1);
     mret (present, missing))
      (start NewDefault)
    = Returns (42, -1) s' /\
    sink (trace s') = [(sugar, redis_Nil)].
Proof. eexists. split; reflexivity. Qed.

(** No logger attached: reading a key that does not exist ends the
    process. *)
Example scenario_no_sink :
  exists s',
    (UseRedis client;; Get "absent-key") (start NewDefault) = Exits 1 s' /\
    trace s' = [StoreCall (GET "rad_absent-key"); StdLog redis_Nil].
Proof. eexists. split; reflexivity. Qed.

(** Keys deleted in one batch are gone. *)
Example scenario_delete_many :
  exists s',
    (UseRedis client;; UseZapLogger sugar;;
     SetString "a" "1" 0;; SetString "b" "2" 0;;
     before ← Exist "a";
     err ← DelAny ["a"; "b"];
     a ← Exist "a"; b ← Exist "b";
     mret (before, err, a, b))
      (start NewDefault)
    = Returns (true, None, false, false) s' /\
    store_calls (trace s')
    = [SET "rad_a" (ArgString "1") 0; SET "rad_b" (ArgString "2") 0;
       EXISTS ["rad_a"]; DEL ["rad_a"; "rad_b"];
       EXISTS ["rad_a"]; EXISTS ["rad_b"]].
Proof. eexists. split; reflexivity. Qed.

End Examples.

(** ** The further properties at work *)

Section MoreExamples.
Import Mem.
Local Open Scope Z_scope.

(** X2 at work: the default handle, read before a client is attached. *)
Lemma method_without_client_panics_witness :
  Db (rad (start NewDefault)) = None /\
  command (rad (start NewDefault)) (OpGet "k") = Some (GET "rad_k") /\
  run (OpGet "k") (start NewDefault) = Panics (start NewDefault).
Proof.
  split; [reflexivity|]. split; [reflexivity|].
  exact (method_without_client_panics (OpGet "k") (start NewDefault) (GET "rad_k")
           eq_refl eq_refl).
Defined.

(** X4 at work: the text 42 under the key n, no logger attached. *)
Lemma getters_return_the_stored_value_witness :
  let s := {| rad := connected;
              srv := {| up := true; kv := {[ "rad_n" := ("42", 0) ]} |};
              trace := [] |} in
  let s' := {| rad := connected; srv := srv s; trace := [StoreCall (GET "rad_n")] |} in
  (Db (rad s) = Some client /\ fst (redis_GET "rad_n" (srv s)) = inl "42" /\
   Atoi "42" = inl 42) /\
  GetString "n" s = Returns ("42", None) s' /\
  Get "n" s = Returns (VFloat64 42, None) s' /\
  GetInt "n" s = Returns (42, None) s'.
Proof.
  intros s s'. split; [repeat split|].
  destruct (getters_return_the_stored_value "n" s client "42" eq_refl eq_refl)
    as (HS & HG & HI & _).
  split; [exact HS|]. split; [exact HG|exact (HI 42 eq_refl)].
Defined.

(** X5 at work: the stored 42 wins over the fallback 7. *)
Lemma OrDefault_returns_the_stored_value_witness :
  let s := {| rad := connected;
              srv := {| up := true; kv := {[ "rad_n" := ("42", 0) ]} |};
              trace := [] |} in
  (Db (rad s) = Some client /\ fst (redis_GET "rad_n" (srv s)) = inl "42" /\
   Atoi "42" = inl 42) /\
  GetIntOrDefault "n" 7 s
  = Returns 42 {| rad := connected; srv := srv s; trace := [StoreCall (GET "rad_n")] |}.
Proof.
  intros s. split; [repeat split|].
  destruct (OrDefault_returns_the_stored_value "n" s client "42" eq_refl eq_refl)
    as (_ & HI & _).
  exact (HI 42 7 eq_refl).
Defined.

(** X6 at work: a client, no logger, the server down. *)
Lemma OrDefault_without_sink_witness :
  (Db (rad (start_down connected)) = Some client /\
   Logger (rad (start_down connected)) = None /\
   fst (redis_GET "rad_k" (srv (start_down connected))) = inr refused) /\
  GetIntOrDefault "k" 7 (start_down connected)
  = Panics {| rad := connected; srv := {| up := false; kv := ∅ |};
              trace := [StoreCall (GET "rad_k")] |} /\
  GetStringOrDefault "k" "none" (start_down connected)
  = Exits 1 {| rad := connected; srv := {| up := false; kv := ∅ |};
               trace := [StoreCall (GET "rad_k"); StdLog refused] |}.
Proof.
  split; [repeat split|].
  destruct (OrDefault_without_sink_does_not_return "k" (start_down connected) client refused
              eq_refl eq_refl eq_refl) as (HS & HI & _).
  split; [exact (HI 7)|exact (HS "none")].
Defined.

(** X8 at work. *)
Lemma distinct_keys_witness :
  "a" <> "b" /\ physical NewDefault "a" <> physical NewDefault "b".
Proof.
  split; [discriminate|].
  exact (distinct_keys_distinct_physical_keys NewDefault "a" "b" ltac:(discriminate)).
Defined.

(** Across handles the prefix does not separate keys: two prefixes can
    lead two logical keys to one physical key. *)
Example prefixes_can_collide :
  physical (New {| Prefix := "a" |}) "bc" = physical (New {| Prefix := "ab" |}) "c".
Proof. reflexivity. Qed.

(** A nil slice written through [Set_] is read by [Get] as the nil
    interface. *)
Example Set_then_Get_nil_slice :
  exists s2,
    (Set_ "j" VNilSlice 0;; Get "j") (start connected) = Returns (VNil, None) s2 /\
    store_calls (trace s2) = [SET "rad_j" (ArgString "null") 0; GET "rad_j"].
Proof. eexists. split; reflexivity. Qed.

(** X10 at work: a slice written and read back on the in-memory server. *)
Lemma Set_then_Get_witness :
  let v := VSlice [VFloat64 1; VNil] in
  let s := start connected in
  (Db (rad s) = Some client /\ generic v = true /\
   (nesting v <= maxNestingDepth)%N /\ Marshal v = ("[1,null]", None) /\
   fst (redis_GET "rad_j" (snd (redis_SET "rad_j" (ArgString "[1,null]") 0 (srv s))))
   = inl "[1,null]") /\
  exists s2, (Set_ "j" v 0;; Get "j") s = Returns (v, None) s2.
Proof.
  intros v s. split; [repeat split; discriminate|].
  destruct (Set_then_Get_returns_the_value "j" v 0 s client "[1,null]"
              eq_refl eq_refl ltac:(discriminate) eq_refl eq_refl) as (s2 & H & _).
  exists s2. exact H.
Defined.

(** X11 at work: the boolean written through the generic path is read
    through the string path as its JSON text. *)
Lemma generic_and_typed_paths_witness :
  let s := start connected in
  (Db (rad s) = Some client /\ Marshal (VBool true) = ("true", None) /\
   fst (redis_GET "rad_j" (snd (redis_SET "rad_j" (ArgString "true") 0 (srv s))))
   = inl "true") /\
  (exists s2, (Set_ "j" (VBool true) 0;; GetString "j") s = Returns ("true", None) s2) /\
  (exists s2, (SetString "j" "true" 0;; Get "j") s = Returns (UnMarshal "true") s2).
Proof.
  intros s. split; [repeat split|].
  destruct (generic_and_typed_paths_differ "j" 0 s client eq_refl) as (H1 & _ & H3).
  split; [exact (H1 (VBool true) "true" eq_refl eq_refl)|exact (H3 "true" eq_refl)].
Defined.

(** X13 at work: a text with white space is read, written compactly, and
    read again as the same value. *)
Lemma UnMarshal_result_survives_witness :
  let v := VSlice [VFloat64 1; VFloat64 2] in
  (UnMarshal " [ 1 , 2 ] " = (v, None) /\ Marshal v = ("[1,2]", None)) /\
  UnMarshal "[1,2]" = (v, None).
Proof.
  intros v. split; [split; reflexivity|].
  exact (UnMarshal_result_survives_round_trip " [ 1 , 2 ] " v "[1,2]" eq_refl eq_refl).
Defined.

(** X14 at work: a stored array of one number. *)
Lemma Get_returns_generic_values_witness :
  let s := {| rad := connected;
              srv := {| up := true; kv := {[ "rad_j" := ("[1]", 0) ]} |};
              trace := [] |} in
  let s' := {| rad := connected; srv := srv s; trace := [StoreCall (GET "rad_j")] |} in
  let v := VSlice [VFloat64 1] in
  Get "j" s = Returns (v, None) s' /\
  generic v = true /\ (nesting v <= maxNestingDepth)%N.
Proof.
  intros s s' v. split; [reflexivity|].
  exact (Get_returns_generic_values "j" s s' v eq_refl).
Defined.


(** The same program on a handle without a logger stops at the misread. *)
Example without_logger_the_program_stops :
  exists s', run_all [OpSetString "k" "x" 0; OpGetInt "k"; OpDel "k"; OpGet "k"]
               (start connected) = Panics s'.
Proof. eexists. reflexivity. Qed.

End MoreExamples.
